(** * Highlight reconciliation of [src/window.ts]

    A shallow embedding of the highlight diffing code of the [Window] class
    ([diffHighlights], [applyDiffHighlights] and their helpers
    [convertHighlightItem] and [isSame]) and of the three picker entry points
    that take a cancellation token ([showQuickPick], [showMenuPicker],
    [showPickerDialog]), of the tab bookkeeping ([init], [getTabNumber],
    [getTabId]), of [showMessage] with the [messageLevel] getter and of
    [echoLines], followed by the properties established for them.

    Line numbers, columns, buffer numbers and markers are the unsigned
    integers of the editor API and are represented by [nat]. *)

From Stdlib Require Import ZArith Ascii.
From stdpp Require Import gmap list sorting strings.

Local Open Scope nat_scope.

(** ** Data model *)

(** [HighlightItem] of [./types]: a desired highlight span. *)
Record HighlightItem := mkItem {
  hlGroup : string;
  lnum : nat;
  colStart : nat;
  colEnd : nat;
  combine : bool;
  start_incl : bool;
  end_incl : bool
}.

(** [HighlightItemDef]: the positional tuple sent to [coc#highlight#set]. *)
Definition HighlightItemDef : Type := string * nat * nat * nat * nat * nat * nat.

(** [HighlightItemResult]: the positional tuple reported by
    [coc#highlight#get_highlights]; the projections are named after the
    positions the code reads ([o[1]] is the line, [o[4]] the marker). *)
Record HighlightItemResult := mkResult {
  res_hlGroup : string;
  res_lnum : nat;
  res_colStart : nat;
  res_colEnd : nat;
  res_marker : nat
}.

(** [HighlightDiff]: the object literal returned by [diffHighlights]. *)
Record HighlightDiff := mkDiff {
  remove : list nat;
  add : list HighlightItemDef;
  removeMarkers : list nat
}.

Record CancellationToken := mkToken { isCancellationRequested : bool }.

(** The two members of [this.workspace] that [diffHighlights] reads. *)
Record Workspace := mkWorkspace {
  has : string → bool;
  isVim : bool
}.

(** ** Helpers *)

(** [item.combine ? 1 : 0] *)
Definition flag (b : bool) : nat := if b then 1 else 0.

Definition convertHighlightItem (item : HighlightItem) : HighlightItemDef :=
  (hlGroup item, lnum item, colStart item, colEnd item,
   flag (combine item), flag (start_incl item), flag (end_incl item)).

(** [equals(arr, curr.slice(0, 4))] on two four-element arrays of a string
    and three numbers is the conjunction of the four component tests. *)
Definition isSame (item : HighlightItem) (curr : HighlightItemResult) : bool :=
  String.eqb (hlGroup item) (res_hlGroup curr)
  && Nat.eqb (lnum item) (res_lnum curr)
  && Nat.eqb (colStart item) (res_colStart curr)
  && Nat.eqb (colEnd item) (res_colEnd curr).

(** ** [items.sort((a, b) => a.lnum - b.lnum)]

    [Array.prototype.sort] is stable, so the outcome is determined by the
    comparator; it is computed here by straight insertion, each element
    going in front of the first one it does not exceed. *)
Fixpoint insert_by_lnum (x : HighlightItem) (l : list HighlightItem) : list HighlightItem :=
  match l with
  | [] => [x]
  | y :: l' => if lnum x <=? lnum y then x :: y :: l' else y :: insert_by_lnum x l'
  end.

Definition sort_by_lnum (items : list HighlightItem) : list HighlightItem :=
  foldr insert_by_lnum [] items.

(** ** [diffHighlights] *)

(** The argument list of the [coc#highlight#get_highlights] request. *)
Inductive Arg :=
| ANum (z : Z)
| AStr (s : string)
| ANums (l : list nat)
| ADefs (l : list HighlightItemDef).

Definition get_highlights_args (bufnr : nat) (ns : string) (region : option (nat * nat)) : list Arg :=
  [ANum (Z.of_nat bufnr); AStr ns]
  ++ match region with
     | Some (r0, r1) => [ANum (Z.of_nat r0); ANum (Z.of_nat r1 - 1)]
     | None => []
     end.

(** [token?.isCancellationRequested] *)
Definition cancellationRequested (token : option CancellationToken) : bool :=
  match token with
  | Some t => isCancellationRequested t
  | None => false
  end.

(** [this.workspace.has('nvim-0.5.1') || this.workspace.isVim] *)
Definition checkMarkers (ws : Workspace) : bool :=
  has ws "nvim-0.5.1"%string || isVim ws.

(** One round of [curr.forEach]: the running maximum line and the map from
    line to the records seen on it, in reported order. *)
Definition group_step (acc : nat * gmap nat (list HighlightItemResult)) (o : HighlightItemResult)
  : nat * gmap nat (list HighlightItemResult) :=
  let '(maxLnum, hlmap) := acc in
  (Nat.max maxLnum (res_lnum o),
   match hlmap !! res_lnum o with
   | Some arr => <[res_lnum o := arr ++ [o]]> hlmap
   | None => <[res_lnum o := [o]]> hlmap
   end).

Definition group_highlights (curr : list HighlightItemResult)
  : nat * gmap nat (list HighlightItemResult) :=
  foldl group_step (0, ∅) curr.

(** The inner [for (let j = itemIndex; j <= maxIndex; j++)] loop over the
    items from the cursor on: [rest] is [items] from position [j]; the result
    is [added] and the new [itemIndex]. *)
Fixpoint collect_added (i : nat) (rest : list HighlightItem) (j : nat)
  : list HighlightItem * nat :=
  match rest with
  | [] => ([], j)
  | o :: rest' =>
      if lnum o =? i then
        let '(added, itemIndex') := collect_added i rest' (S j) in
        (o :: added, itemIndex')
      else ([], j)
  end.

(** The [while (skip < min)] loop: the number of leading positions at which
    [added] and [exists] agree. *)
Fixpoint skip_same (added : list HighlightItem) (exists_ : list HighlightItemResult) : nat :=
  match added, exists_ with
  | a :: added', e :: exists' => if isSame a e then S (skip_same added' exists') else 0
  | _, _ => 0
  end.

(** [added.every((o, i) => isSame(o, exists[i]))]; it is only evaluated when
    both arrays have the same length. *)
Fixpoint every_same (added : list HighlightItem) (exists_ : list HighlightItemResult) : bool :=
  match added, exists_ with
  | [], _ => true
  | a :: added', e :: exists' => isSame a e && every_same added' exists'
  | _ :: _, [] => false
  end.

(** The variables the outer loop updates; [markersToRemove] is the local
    [removeMarkers], whose name the diff's field has, and [cm] below is the
    local [checkMarkers], [hlmap] the local [map], [exists_] the local
    [exists]. *)
Record LoopState := mkLoop {
  linesToRemove : list nat;
  markersToRemove : list nat;
  newItems : list HighlightItemDef;
  itemIndex : nat
}.

(** The branches of the loop body once [exists] and [added] are known;
    [idx] is the cursor left by the inner loop. *)
Definition line_update (cm : bool) (i : nat) (exists_ : list HighlightItemResult)
    (added : list HighlightItem) (idx : nat) (st : LoopState) : LoopState :=
  match added with
  | [] =>
      match exists_ with
      | _ :: _ =>
          if cm then
            mkLoop (linesToRemove st) (markersToRemove st ++ (res_marker <$> exists_))
                   (newItems st) idx
          else
            mkLoop (linesToRemove st ++ [i]) (markersToRemove st) (newItems st) idx
      | [] => mkLoop (linesToRemove st) (markersToRemove st) (newItems st) idx
      end
  | _ :: _ =>
      match exists_ with
      | [] =>
          mkLoop (linesToRemove st) (markersToRemove st)
                 (newItems st ++ (convertHighlightItem <$> added)) idx
      | _ :: _ =>
          if cm then
            let skip := skip_same added exists_ in
            mkLoop (linesToRemove st)
                   (markersToRemove st ++ (res_marker <$> drop skip exists_))
                   (newItems st ++ (convertHighlightItem <$> drop skip added)) idx
          else if negb (length added =? length exists_) || negb (every_same added exists_) then
            mkLoop (linesToRemove st ++ [i]) (markersToRemove st)
                   (newItems st ++ (convertHighlightItem <$> added)) idx
          else mkLoop (linesToRemove st) (markersToRemove st) (newItems st) idx
      end
  end.

(** [defaultValue(map.get(i), [])] *)
Definition exists_at (hlmap : gmap nat (list HighlightItemResult)) (i : nat)
  : list HighlightItemResult :=
  default [] (hlmap !! i).

(** The body of [for (let i = start; i <= maxLnum; i++)]. *)
Definition line_body (cm : bool) (hlmap : gmap nat (list HighlightItemResult))
    (items : list HighlightItem) (i : nat) (st : LoopState) : LoopState :=
  let exists_ := exists_at hlmap i in
  let '(added, idx) := collect_added i (drop (itemIndex st) items) (itemIndex st) in
  line_update cm i exists_ added idx st.

(** [n] rounds of the outer loop from line [i] on. *)
Fixpoint line_loop (cm : bool) (hlmap : gmap nat (list HighlightItemResult))
    (items : list HighlightItem) (n : nat) (i : nat) (st : LoopState) : LoopState :=
  match n with
  | 0 => st
  | S n' => line_loop cm hlmap items n' (S i) (line_body cm hlmap items i st)
  end.

(** [let start = Array.isArray(region) ? region[0] : 0] *)
Definition scan_start (region : option (nat * nat)) : nat :=
  match region with Some (r0, _) => r0 | None => 0 end.

(** The state after the [if (curr.length > 0) { ... }] block; [items] is the
    sorted array.  Lines [start] to [maxLnum] inclusive are visited, that is
    [S maxLnum - start] of them. *)
Definition scan_lines (cm : bool) (items : list HighlightItem) (region : option (nat * nat))
    (curr : list HighlightItemResult) : LoopState :=
  let '(maxLnum, hlmap) := group_highlights curr in
  let st0 := mkLoop [] [] [] 0 in
  match curr with
  | [] => st0
  | _ :: _ =>
      let start := scan_start region in
      line_loop cm hlmap items (S maxLnum - start) start st0
  end.

(** [diffHighlights]: [curr] is the value the [get_highlights] request
    resolves to ([None] for a null reply) and [token] the token as it is once
    the reply is in.  The first component of the result is the caller's
    [items] array after the call, the second the value returned. *)
Definition diffHighlights (ws : Workspace) (items : list HighlightItem)
    (region : option (nat * nat)) (token : option CancellationToken)
    (curr : option (list HighlightItemResult))
  : list HighlightItem * option HighlightDiff :=
  match curr with
  | None => (items, None)
  | Some curr =>
      if cancellationRequested token then (items, None)
      else
        let items := sort_by_lnum items in
        let st := scan_lines (checkMarkers ws) items region curr in
        (items,
         Some (mkDiff (linesToRemove st)
                      (newItems st ++ (convertHighlightItem <$> drop (itemIndex st) items))
                      (markersToRemove st)))
  end.

(** ** [applyDiffHighlights]

    The client object [nvim] is driven through three methods; what matters
    to the caller is the order in which they are invoked, so the client is
    represented by the log of invocations made on it so far. *)
Inductive NvimInvocation :=
| PauseNotification
| CallNotify (method : string) (args : list Arg)
| ResumeNotification (redrawVim : bool) (notify : bool).

Definition Nvim : Type := list NvimInvocation.

Definition pauseNotification (nvim : Nvim) : Nvim := nvim ++ [PauseNotification].

(** [nvim.call(method, args, true)] *)
Definition call_notify (method : string) (args : list Arg) (nvim : Nvim) : Nvim :=
  nvim ++ [CallNotify method args].

Definition resumeNotification (redrawVim notify : bool) (nvim : Nvim) : Nvim :=
  nvim ++ [ResumeNotification redrawVim notify].

(** [if (arr.length) ...] *)
Definition when_nonempty {A} (arr : list A) (f : Nvim → Nvim) (nvim : Nvim) : Nvim :=
  match arr with
  | [] => nvim
  | _ :: _ => f nvim
  end.

Definition all_empty (diff : HighlightDiff) : bool :=
  (length (remove diff) =? 0) && (length (add diff) =? 0)
  && (length (removeMarkers diff) =? 0).

(** With [notify] the batch is flushed as a notification, otherwise the
    caller awaits [resumeNotification(true)]; both invoke the method once. *)
Definition applyDiffHighlights (bufnr : nat) (ns : string) (priority : nat)
    (diff : HighlightDiff) (notify : bool) (nvim : Nvim) : Nvim :=
  if all_empty diff then nvim
  else
    let nvim := pauseNotification nvim in
    let nvim :=
      when_nonempty (removeMarkers diff)
        (call_notify "coc#highlight#del_markers"
           [ANum (Z.of_nat bufnr); AStr ns; ANums (removeMarkers diff)]) nvim in
    let nvim :=
      when_nonempty (remove diff)
        (call_notify "coc#highlight#clear"
           [ANum (Z.of_nat bufnr); AStr ns; ANums (remove diff)]) nvim in
    let nvim :=
      when_nonempty (add diff)
        (call_notify "coc#highlight#set"
           [ANum (Z.of_nat bufnr); AStr ns; ADefs (add diff); ANum (Z.of_nat priority)]) nvim in
    if notify then resumeNotification true true nvim
    else resumeNotification true false nvim.

(** ** The pickers that take a cancellation token

    Each picker is described by what it does to the shared mutex and the
    screen, in order, and by the value its promise resolves to.  The user's
    answer is an input. *)
Inductive Surface := QuickPickSurface | MenuSurface | PickerSurface.

Inductive UiEvent :=
| MutexAcquire
| MutexRelease
| Present (s : Surface).

Global Instance Surface_eq_dec : EqDecision Surface.
Proof. solve_decision. Defined.

Global Instance UiEvent_eq_dec : EqDecision UiEvent.
Proof. solve_decision. Defined.

(** Modelled from the spec: [Mutex.use] of [./util/mutex], which gives
    each caller a turn, runs the task in that turn and is released when the
    task settles.  Seen from one caller the turn brackets the task. *)
Definition mutex_use {R} (task : list UiEvent * R) : list UiEvent * R :=
  ([MutexAcquire] ++ task.1 ++ [MutexRelease], task.2).

Record QuickPickItem := mkQuickPickItem {
  label : string;
  description : string
}.

(** [Item = QuickPickItem | string] *)
Inductive Item :=
| ItemText (s : string)
| ItemObject (o : QuickPickItem).

Record QuickPickOptions := mkQuickPickOptions {
  canPickMany : bool
}.

(** [Item | Item[] | undefined] *)
Inductive QuickPickResult :=
| PickedUndefined
| PickedOne (it : Item)
| PickedMany (its : list Item).

Definition is_text (it : Item) : bool :=
  match it with ItemText _ => true | ItemObject _ => false end.

(** The [onDidFinish] handler of [showQuickPick]: [finished] is [None] when
    the quickpick was dismissed. *)
Definition quickpick_finish (isText : bool) (options : QuickPickOptions)
    (finished : option (list QuickPickItem)) : QuickPickResult :=
  match finished with
  | None => PickedUndefined
  | Some items =>
      let arr := if isText then (λ o, ItemText (label o)) <$> items
                 else ItemObject <$> items in
      if canPickMany options then PickedMany arr
      else match arr with
           | it :: _ => PickedOne it
           | [] => PickedUndefined
           end
  end.

(** [showQuickPick] with the items given as an array and a surface that
    opens; [token] defaults to [CancellationToken.None]. *)
Definition showQuickPick (items : list Item) (options : option QuickPickOptions)
    (token : option CancellationToken) (finished : option (list QuickPickItem))
  : list UiEvent * QuickPickResult :=
  match items with
  | [] => ([], PickedUndefined)
  | _ :: _ =>
      let options := default (mkQuickPickOptions false) options in
      let token := default (mkToken false) token in
      let isText := existsb is_text items in
      mutex_use
        (if isCancellationRequested token then ([], PickedUndefined)
         else ([Present QuickPickSurface], quickpick_finish isText options finished))
  end.

(** [showMenuPicker]: [selected] is the index the menu closes with; the
    [option] argument only configures the menu and is left out. *)
Definition showMenuPicker {A} (items : list A) (token : option CancellationToken)
    (selected : Z) : list UiEvent * Z :=
  mutex_use
    (match token with
     | Some t =>
         if isCancellationRequested t then ([], (-1)%Z)
         else ([Present MenuSurface], selected)
     | None => ([Present MenuSurface], selected)
     end).

(** [items.filter((_, i) => picked.includes(i))] *)
Fixpoint filter_picked_from {A} (i : nat) (items : list A) (picked : list nat) : list A :=
  match items with
  | [] => []
  | x :: items' =>
      if bool_decide (i ∈ picked) then x :: filter_picked_from (S i) items' picked
      else filter_picked_from (S i) items' picked
  end.

Definition filter_picked {A} (items : list A) (picked : list nat) : list A :=
  filter_picked_from 0 items picked.

(** [showPickerDialog]: [picked] are the indexes the picker closes with,
    [None] when it was dismissed; the [title] only labels the picker and is
    left out. *)
Definition showPickerDialog {A} (items : list A) (token : option CancellationToken)
    (picked : option (list nat)) : list UiEvent * option (list A) :=
  mutex_use
    (match token with
     | Some t =>
         if isCancellationRequested t then ([], None)
         else ([Present PickerSurface], filter_picked items <$> picked)
     | None => ([Present PickerSurface], filter_picked items <$> picked)
     end).

(** ** Tab bookkeeping

    [tab_global_id] is the module counter, [tabIds] the field of [Window];
    [closedTabs] lists the ids fired on [onDidTabClose], oldest first. *)
Record TabState := mkTabs {
  tab_global_id : nat;
  tabIds : list nat;
  closedTabs : list nat
}.

(** [return tab_global_id++] *)
Definition generateTabId (st : TabState) : nat * TabState :=
  (tab_global_id st, mkTabs (S (tab_global_id st)) (tabIds st) (closedTabs st)).

(** [for (let i = 1; i <= env.tabCount; i++) this.tabIds.push(generateTabId())] *)
Fixpoint init (tabCount : nat) (st : TabState) : TabState :=
  match tabCount with
  | 0 => st
  | S n =>
      let '(id, st') := generateTabId st in
      init n (mkTabs (tab_global_id st') (tabIds st' ++ [id]) (closedTabs st'))
  end.

(** The position [splice(nr - 1, ...)] starts at in an array of [len]
    elements: a start past the end is the end, and the start -1 that
    [nr = 0] gives counts from the end. *)
Definition splice_start (nr len : nat) : nat :=
  match nr with
  | 0 => len - 1
  | S k => Nat.min k len
  end.

(** The [TabNew] handler: [this.tabIds.splice(nr - 1, 0, generateTabId())]. *)
Definition on_TabNew (nr : nat) (st : TabState) : TabState :=
  let '(id, st') := generateTabId st in
  let a := splice_start nr (length (tabIds st')) in
  mkTabs (tab_global_id st') (take a (tabIds st') ++ id :: drop a (tabIds st'))
         (closedTabs st').

(** [this.tabIds[nr - 1]] *)
Definition getTabId (nr : nat) (st : TabState) : option nat :=
  match nr with
  | 0 => None
  | S k => tabIds st !! k
  end.

(** The [TabClosed] handler: the id is read, one element is spliced out and
    the id is fired when it is truthy. *)
Definition on_TabClosed (nr : nat) (st : TabState) : TabState :=
  let id := getTabId nr st in
  let a := splice_start nr (length (tabIds st)) in
  let ids := take a (tabIds st) ++ drop (S a) (tabIds st) in
  match id with
  | Some (S n) => mkTabs (tab_global_id st) ids (closedTabs st ++ [S n])
  | _ => mkTabs (tab_global_id st) ids (closedTabs st)
  end.

(** [Array.prototype.indexOf] on an array that holds the element. *)
Fixpoint indexOf (id : nat) (l : list nat) : option nat :=
  match l with
  | [] => None
  | x :: l' => if decide (x = id) then Some 0 else S <$> indexOf id l'
  end.

Definition getTabNumber (id : nat) (st : TabState) : option nat :=
  if bool_decide (id ∈ tabIds st) then (λ i, i + 1) <$> indexOf id (tabIds st)
  else None.

(** ** [showMessage] and [messageLevel] *)

Inductive MessageLevel := More | Warning | Error.

(** The numeric value of the enum member. *)
Definition level_value (l : MessageLevel) : nat :=
  match l with More => 0 | Warning => 1 | Error => 2 end.

(** The [messageLevel] getter; [level] is the configured string. *)
Definition messageLevel (level : string) : MessageLevel :=
  if String.eqb level "error" then Error
  else if String.eqb level "warning" then Warning
  else More.

(** [showMessage]: the result is the message and highlight group handed to
    [ui.showMessage], [None] when nothing is shown. *)
Definition showMessage (level : string) (msg : string) (messageType : string)
  : option (string * string) :=
  let '(hl, lv) :=
    if String.eqb messageType "more" then ("MoreMsg"%string, More)
    else if String.eqb messageType "warning" then ("WarningMsg"%string, Warning)
    else ("Error"%string, Error) in
  if level_value (messageLevel level) <=? level_value lv then Some (msg, hl) else None.

(** ** [echoLines]

    A string is the list of its characters. *)
Definition newline : ascii := "010"%char.
Definition space : ascii := " "%char.

(** [line.replace(/\n/g, ' ')] *)
Definition replace_newlines (line : list ascii) : list ascii :=
  (λ c, if Ascii.eqb c newline then space else c) <$> line.

(** [s.slice(0, e)]: a negative [e] counts from the end. *)
Definition slice0 (s : list ascii) (e : Z) : list ascii :=
  if (e <? 0)%Z then take (Z.to_nat (Z.of_nat (length s) + e)) s
  else take (Z.to_nat e) s.

Definition ellipsis : list ascii := [space; "."%char; "."%char; "."%char].

(** [echoLines]: the result is the array handed to [coc#ui#echo_lines];
    [None] stands for the TypeError of reading [last.length] when [last] is
    undefined. *)
Definition echoLines (cmdHeight columns : nat) (lines : list (list ascii))
    (truncate : bool) : option (list (list ascii)) :=
  let lines :=
    if (cmdHeight <? length lines) && truncate then take cmdHeight lines else lines in
  let maxLen := (Z.of_nat columns - 12)%Z in
  let lines :=
    (λ line, let line := replace_newlines line in
             if truncate then slice0 line maxLen else line) <$> lines in
  if truncate && (length lines =? cmdHeight) then
    match last lines with
    | None => None
    | Some l =>
        let text :=
          (if (maxLen <=? Z.of_nat (length l))%Z then slice0 l (-4) else l) ++ ellipsis in
        Some (<[cmdHeight - 1 := text]> lines)
    end
  else Some lines.

(** The two tab events the window listens to, and a run of them. *)
Inductive TabEvent :=
| TabNew (nr : nat)
| TabClosed (nr : nat).

Definition on_tab_event (st : TabState) (ev : TabEvent) : TabState :=
  match ev with
  | TabNew nr => on_TabNew nr st
  | TabClosed nr => on_TabClosed nr st
  end.

(** What holds of the tab state at all times: the counter is positive, as
    it starts at 3000, and the ids of the open tabs and of the tabs closed
    so far are pairwise distinct, truthy and below it. *)
Definition tabs_ok (st : TabState) : Prop :=
  0 < tab_global_id st
  ∧ NoDup (tabIds st ++ closedTabs st)
  ∧ Forall (λ id, 0 < id < tab_global_id st) (tabIds st ++ closedTabs st).

(** ** Notions used in the statements *)

Definition lnum_le (a b : HighlightItem) : Prop := lnum a ≤ lnum b.

(** The items [added] that line [i] takes from a cursor at [j]. *)
Definition added_at (items : list HighlightItem) (i j : nat) : list HighlightItem :=
  (collect_added i (drop j items) j).1.

(** [k] is the length of the longest common prefix of [added] and
    [exists_] under the four-field comparison: the first [k] positions
    agree and position [k], if both lists reach it, does not. *)
Definition longest_common_prefix (k : nat) (added : list HighlightItem)
    (exists_ : list HighlightItemResult) : Prop :=
  k ≤ length added ∧ k ≤ length exists_
  ∧ (∀ j a e, j < k → added !! j = Some a → exists_ !! j = Some e → isSame a e = true)
  ∧ (∀ a e, added !! k = Some a → exists_ !! k = Some e → isSame a e = false).

(** The two sequences agree position by position and have the same length. *)
Definition pairwise_same (added : list HighlightItem)
    (exists_ : list HighlightItemResult) : Prop :=
  Forall2 (λ a e, isSame a e = true) added exists_.

(** The commands a diff calls for, in the order delete, clear, set. *)
Definition batch_commands (bufnr : nat) (ns : string) (priority : nat)
    (diff : HighlightDiff) : list NvimInvocation :=
  match removeMarkers diff with
  | [] => []
  | _ :: _ => [CallNotify "coc#highlight#del_markers"
                 [ANum (Z.of_nat bufnr); AStr ns; ANums (removeMarkers diff)]]
  end
  ++ match remove diff with
     | [] => []
     | _ :: _ => [CallNotify "coc#highlight#clear"
                    [ANum (Z.of_nat bufnr); AStr ns; ANums (remove diff)]]
     end
  ++ match add diff with
     | [] => []
     | _ :: _ => [CallNotify "coc#highlight#set"
                    [ANum (Z.of_nat bufnr); AStr ns; ADefs (add diff);
                     ANum (Z.of_nat priority)]]
     end.

(** What holds of the loop variables on entering line [j] of a scan that
    started at line [a]. *)
Definition scan_inv (curr : list HighlightItemResult) (items : list HighlightItem)
    (a j : nat) (s : LoopState) : Prop :=
  Forall (λ l, a ≤ l < j) (linesToRemove s)
  ∧ StronglySorted lt (linesToRemove s)
  ∧ Forall (λ m, ∃ r, r ∈ curr ∧ res_marker r = m ∧ a ≤ res_lnum r < j) (markersToRemove s)
  ∧ (NoDup (res_marker <$> curr) → NoDup (markersToRemove s))
  ∧ Forall (λ o, a ≤ lnum o < j) (take (itemIndex s) items)
  ∧ Forall (λ def, ∃ o, o ∈ take (itemIndex s) items ∧ def = convertHighlightItem o)
           (newItems s).

(** The loop variables on entering line [i] of the scan. *)
Definition entering (cm : bool) (items : list HighlightItem) (region : option (nat * nat))
    (curr : list HighlightItemResult) (i : nat) : LoopState :=
  line_loop cm (group_highlights curr).2 items (i - scan_start region) (scan_start region)
    (mkLoop [] [] [] 0).

(** [added] as the inner loop collects it for line [i] of the scan. *)
Definition added_on (cm : bool) (items : list HighlightItem) (region : option (nat * nat))
    (curr : list HighlightItemResult) (i : nat) : list HighlightItem :=
  added_at items i (itemIndex (entering cm items region curr i)).

(** Every marker of [ms] is the marker of a snapshot record whose line
    satisfies [P]. *)
Definition markers_on (curr : list HighlightItemResult) (P : nat → Prop) (ms : list nat) : Prop :=
  Forall (λ m, ∃ r, r ∈ curr ∧ res_marker r = m ∧ P (res_lnum r)) ms.

(** The line field of an encoded item. *)
Definition def_lnum (def : HighlightItemDef) : nat := def.1.1.1.1.1.2.

(** On entering line [i] the items before the cursor lie on earlier lines
    and those from the cursor on lie on line [i] or later. *)
Definition cursor_ok (items : list HighlightItem) (i idx : nat) : Prop :=
  Forall (λ o, lnum o < i) (take idx items) ∧ Forall (λ o, i ≤ lnum o) (drop idx items).

(** The records of every line equal, in order and under the four-field
    comparison, the desired items of that line. *)
Definition consistent (desired : list HighlightItem) (curr : list HighlightItemResult) : Prop :=
  ∀ l, pairwise_same (filter (λ o, lnum o = l) desired) (filter (λ r, res_lnum r = l) curr).

(** A snapshot taken for a region holds records of that region only. *)
Definition snapshot_within (region : option (nat * nat)) (curr : list HighlightItemResult) : Prop :=
  match region with
  | Some (a, b) => Forall (λ r, a ≤ res_lnum r < b) curr
  | None => True
  end.

(** Modelled from the spec: the reply of [coc#highlight#get_highlights],
    which is not under [src/], to the request [diffHighlights] sends: the
    records of the backend state on the lines [region[0]] to [region[1] - 1]
    in their order, all records when no region is passed. *)
Definition region_reply (region : option (nat * nat)) (backend : list HighlightItemResult)
  : list HighlightItemResult :=
  match region with
  | Some (a, b) => filter (λ r, a ≤ res_lnum r < b) backend
  | None => backend
  end.

(** Every desired item lies on a line of the region, when one is passed. *)
Definition items_within (region : option (nat * nat)) (items : list HighlightItem) : Prop :=
  match region with
  | Some (a, b) => Forall (λ o, a ≤ lnum o < b) items
  | None => True
  end.

(** The loop variables of a scan over a matching snapshot. *)
Definition idle_inv (items : list HighlightItem) (j : nat) (s : LoopState) : Prop :=
  linesToRemove s = [] ∧ markersToRemove s = [] ∧ newItems s = []
  ∧ cursor_ok items j (itemIndex s).

(** The loop variables on entering line [j]: the items before the cursor
    and the records of the lines visited so far are accounted for. *)
Definition cover_inv (cm : bool) (curr : list HighlightItemResult)
    (items : list HighlightItem) (a j : nat) (s : LoopState) : Prop :=
  (∀ o, o ∈ take (itemIndex s) items →
        convertHighlightItem o ∈ newItems s ∨ ∃ r, r ∈ curr ∧ isSame o r = true)
  ∧ (∀ r, r ∈ curr → a ≤ res_lnum r < j →
          (if cm then res_marker r ∈ markersToRemove s
           else res_lnum r ∈ linesToRemove s)
          ∨ ∃ o, o ∈ items ∧ isSame o r = true)
  ∧ Forall (λ l, ∃ r, r ∈ curr ∧ res_lnum r = l) (linesToRemove s)
  ∧ newItems s `sublist_of` (convertHighlightItem <$> take (itemIndex s) items).

(** A client log made of closed batches: each batch is a
    [pauseNotification], some requests and a [resumeNotification]. *)
Definition is_call (c : NvimInvocation) : Prop :=
  match c with CallNotify _ _ => True | _ => False end.

Inductive batched : Nvim → Prop :=
| batched_nil : batched []
| batched_snoc log cmds redrawVim notify :
    batched log → Forall is_call cmds →
    batched (log ++ [PauseNotification] ++ cmds ++ [ResumeNotification redrawVim notify]).

(** ** Sample data

    A marker-capable and a line-granular workspace, three desired items of
    line 1 and one of line 7, and records of line 1; [rec_X], [rec_Y] and
    [rec_W] match [item_X], [item_Y] and [item_W], [rec_Z] matches none. *)

Definition ws_markers : Workspace :=
  mkWorkspace (λ feature, String.eqb feature "nvim-0.5.1") false.
Definition ws_lines : Workspace := mkWorkspace (λ _, false) false.

Definition item_X : HighlightItem := mkItem "Error" 1 0 2 false false false.
Definition item_Y : HighlightItem := mkItem "Warn" 1 3 4 false false false.
Definition item_W : HighlightItem := mkItem "Hint" 1 5 6 true false true.
Definition rec_X : HighlightItemResult := mkResult "Error" 1 0 2 10.
Definition rec_Y : HighlightItemResult := mkResult "Warn" 1 3 4 11.
Definition rec_Z : HighlightItemResult := mkResult "Info" 1 5 9 12.
Definition rec_W : HighlightItemResult := mkResult "Hint" 1 5 6 13.
Definition start_state : LoopState := mkLoop [] [] [] 0.
Definition item_late : HighlightItem := mkItem "Late" 7 0 1 false false false.
Definition rec_late : HighlightItemResult := mkResult "Late" 7 0 1 20.

(** * Properties *)

(** ** The comparison *)

Lemma isSame_spec item curr :
  isSame item curr = true ↔
  hlGroup item = res_hlGroup curr ∧ lnum item = res_lnum curr
  ∧ colStart item = res_colStart curr ∧ colEnd item = res_colEnd curr.
Proof.
  unfold isSame. rewrite !andb_true_iff, String.eqb_eq, !Nat.eqb_eq. tauto.
Qed.

(** ** The sort *)

Lemma insert_by_lnum_perm x l : insert_by_lnum x l ≡ₚ x :: l.
Proof.
  induction l as [|y l IH]; simpl; [done|].
  destruct (lnum x <=? lnum y); [done|].
  rewrite IH. apply Permutation_swap.
Qed.

Lemma sort_by_lnum_perm items : sort_by_lnum items ≡ₚ items.
Proof.
  induction items as [|x l IH]; simpl; [done|].
  rewrite insert_by_lnum_perm. by rewrite IH.
Qed.

Lemma insert_by_lnum_sorted x l :
  StronglySorted lnum_le l → StronglySorted lnum_le (insert_by_lnum x l).
Proof.
  induction 1 as [|y l Hl IH Hy]; simpl.
  - repeat constructor.
  - destruct (Nat.leb_spec (lnum x) (lnum y)) as [Hxy|Hxy].
    + constructor; [by constructor|].
      constructor; [done|].
      eapply Forall_impl; [exact Hy|]. unfold lnum_le. intros z Hz. lia.
    + constructor; [done|].
      rewrite insert_by_lnum_perm. constructor; [unfold lnum_le; lia|done].
Qed.

Lemma sort_by_lnum_sorted items : StronglySorted lnum_le (sort_by_lnum items).
Proof.
  induction items as [|x l IH]; simpl; [constructor|].
  by apply insert_by_lnum_sorted.
Qed.

Lemma filter_insert_by_lnum k x l :
  filter (λ o, lnum o = k) (insert_by_lnum x l) = filter (λ o, lnum o = k) (x :: l).
Proof.
  induction l as [|y l IH]; simpl; [done|].
  destruct (Nat.leb_spec (lnum x) (lnum y)) as [Hxy|Hxy]; [done|].
  rewrite !filter_cons in *.
  destruct (decide (lnum y = k)), (decide (lnum x = k)); try lia; by rewrite IH.
Qed.

(** Stability: the items of one line keep their order. *)
Lemma sort_by_lnum_stable k items :
  filter (λ o, lnum o = k) (sort_by_lnum items) = filter (λ o, lnum o = k) items.
Proof.
  induction items as [|x l IH]; simpl; [done|].
  rewrite filter_insert_by_lnum, !filter_cons. by rewrite IH.
Qed.

Lemma insert_by_lnum_id x l :
  Forall (lnum_le x) l → insert_by_lnum x l = x :: l.
Proof.
  destruct 1 as [|y l Hy _]; simpl; [done|].
  unfold lnum_le in Hy. by destruct (Nat.leb_spec (lnum x) (lnum y)); [|lia].
Qed.

Lemma sort_by_lnum_id items :
  StronglySorted lnum_le items → sort_by_lnum items = items.
Proof.
  induction 1 as [|x l Hl IH Hx]; simpl; [done|].
  rewrite IH. by apply insert_by_lnum_id.
Qed.

(** ** The grouping of the snapshot *)

Lemma group_highlights_snoc curr o :
  group_highlights (curr ++ [o]) = group_step (group_highlights curr) o.
Proof. unfold group_highlights. by rewrite foldl_app. Qed.

Lemma group_highlights_lookup curr i :
  exists_at (group_highlights curr).2 i = filter (λ r, res_lnum r = i) curr.
Proof.
  unfold exists_at.
  induction curr as [|o curr IH] using rev_ind; [done|].
  rewrite group_highlights_snoc, filter_app.
  destruct (group_highlights curr) as [mx m]; simpl in *.
  rewrite filter_cons, filter_nil.
  destruct (decide (res_lnum o = i)) as [->|Hne].
  - destruct (m !! i) as [arr|] eqn:Hm; simpl in *;
      rewrite lookup_insert_eq; simpl; by rewrite <- IH.
  - rewrite app_nil_r, <- IH.
    destruct (m !! res_lnum o); by rewrite lookup_insert_ne.
Qed.

Lemma group_highlights_max_ge curr r :
  r ∈ curr → res_lnum r ≤ (group_highlights curr).1.
Proof.
  induction curr as [|o curr IH] using rev_ind; [by intros ?%elem_of_nil|].
  rewrite group_highlights_snoc.
  destruct (group_highlights curr) as [mx m]; simpl in *.
  intros [Hin| ->%list_elem_of_singleton]%elem_of_app; [|lia].
  specialize (IH Hin). lia.
Qed.

Lemma group_highlights_max_witness curr :
  curr ≠ [] → ∃ r, r ∈ curr ∧ (group_highlights curr).1 ≤ res_lnum r.
Proof.
  induction curr as [|o curr IH] using rev_ind; [done|]. intros _.
  rewrite group_highlights_snoc.
  destruct curr as [|o' curr'].
  - exists o. split; [by apply list_elem_of_singleton|]. simpl. lia.
  - destruct IH as (r & Hr & Hmax); [done|].
    destruct (group_highlights (o' :: curr')) as [mx m]; simpl in *.
    destruct (Nat.max_spec mx (res_lnum o)) as [[_ ->]|[_ ->]].
    + exists o. split; [apply (elem_of_app (_ :: _) [_]); right; by apply list_elem_of_singleton|done].
    + exists r. split; [apply (elem_of_app (_ :: _) [_]); by left|done].
Qed.

(** ** The inner loop *)

Lemma collect_added_index i rest j :
  (collect_added i rest j).2 = j + length (collect_added i rest j).1.
Proof.
  revert j; induction rest as [|o rest IH]; intros j; simpl; [lia|].
  destruct (lnum o =? i); simpl; [|lia].
  specialize (IH (S j)). destruct (collect_added i rest (S j)); simpl in *. lia.
Qed.

Lemma collect_added_prefix i rest j :
  rest = (collect_added i rest j).1 ++ drop (length (collect_added i rest j).1) rest.
Proof.
  revert j; induction rest as [|o rest IH]; intros j; simpl; [done|].
  destruct (lnum o =? i); simpl; [|done].
  specialize (IH (S j)). destruct (collect_added i rest (S j)); simpl in *.
  by rewrite <- IH.
Qed.

Lemma collect_added_line i rest j :
  Forall (λ o, lnum o = i) (collect_added i rest j).1.
Proof.
  revert j; induction rest as [|o rest IH]; intros j; simpl; [constructor|].
  destruct (Nat.eqb_spec (lnum o) i); simpl; [|constructor].
  specialize (IH (S j)). destruct (collect_added i rest (S j)); simpl in *.
  by constructor.
Qed.

Lemma line_body_eq cm hlmap items i st :
  line_body cm hlmap items i st =
  line_update cm i (exists_at hlmap i) (added_at items i (itemIndex st))
    (itemIndex st + length (added_at items i (itemIndex st))) st.
Proof.
  unfold line_body, added_at.
  pose proof (collect_added_index i (drop (itemIndex st) items) (itemIndex st)) as H.
  destruct (collect_added i (drop (itemIndex st) items) (itemIndex st)); simpl in *.
  by rewrite H.
Qed.

(** The consumed prefix grows by exactly [added]. *)
Lemma take_added items i j :
  take (j + length (added_at items i j)) items = take j items ++ added_at items i j.
Proof.
  unfold added_at.
  destruct (decide (j ≤ length items)) as [Hle|Hgt].
  - pose proof (collect_added_prefix i (drop j items) j) as H.
    set (a := (collect_added i (drop j items) j).1) in *.
    rewrite <- (take_drop j items) at 1. rewrite H.
    rewrite take_app_add' by (rewrite length_take; lia).
    by rewrite take_app_length.
  - rewrite (drop_ge items j) by lia. simpl.
    rewrite app_nil_r, Nat.add_0_r. done.
Qed.

Lemma drop_added items i j :
  drop j items = added_at items i j ++ drop (j + length (added_at items i j)) items.
Proof.
  unfold added_at. rewrite <- drop_drop. apply collect_added_prefix.
Qed.

(** ** The shape of one round *)

Local Ltac shape_with b k k' :=
  exists b, k, k'; split; [|done];
  cbn [drop fmap list_fmap]; rewrite ?drop_all, ?app_nil_r; done.

Lemma line_update_shape cm i ex ad idx st :
  ∃ (b : bool) (k k' : nat),
    line_update cm i ex ad idx st =
      mkLoop (linesToRemove st ++ (if b then [i] else []))
             (markersToRemove st ++ (res_marker <$> drop k ex))
             (newItems st ++ (convertHighlightItem <$> drop k' ad)) idx
    ∧ (b = true → ex ≠ []).
Proof.
  unfold line_update.
  destruct ad as [|a ad], ex as [|e ex], cm;
    try destruct (negb _ || negb _).
  - shape_with false 0 0.
  - shape_with false 0 0.
  - shape_with false 0 0.
  - shape_with true (S (length ex)) 0.
  - shape_with false 0 0.
  - shape_with false 0 0.
  - shape_with false (skip_same (a :: ad) (e :: ex)) (skip_same (a :: ad) (e :: ex)).
  - shape_with true (S (length ex)) 0.
  - shape_with false (S (length ex)) (S (length ad)).
Qed.

Lemma line_loop_ind (P : nat → LoopState → Prop) cm hlmap items n i st :
  P i st →
  (∀ j s, i ≤ j < i + n → P j s → P (S j) (line_body cm hlmap items j s)) →
  P (i + n) (line_loop cm hlmap items n i st).
Proof.
  revert i st; induction n as [|n IH]; intros i st H0 Hstep; simpl.
  - by rewrite Nat.add_0_r.
  - replace (i + S n) with (S i + n) by lia. apply IH.
    + apply Hstep; [lia|done].
    + intros j s Hj. apply Hstep. lia.
Qed.

(** ** Prefix matching on one line *)

Lemma skip_same_longest added exists_ :
  longest_common_prefix (skip_same added exists_) added exists_.
Proof.
  unfold longest_common_prefix.
  revert exists_; induction added as [|a added IH]; intros [|e exists_]; simpl;
    try (split_and!; [lia | lia | intros; lia | by intros ? ? ?]).
  destruct (isSame a e) eqn:Hae.
  - destruct (IH exists_) as (H1 & H2 & H3 & H4).
    simpl. split_and!; [lia|lia| |done].
    intros [|j] a' e' Hj; simpl.
    + by intros [= <-] [= <-].
    + apply H3. lia.
  - simpl. split_and!; [lia|lia|intros; lia|].
    by intros ? ? [= <-] [= <-].
Qed.

Lemma longest_common_prefix_unique k added exists_ :
  longest_common_prefix k added exists_ → k = skip_same added exists_.
Proof.
  revert k exists_; induction added as [|a added IH];
    intros k [|e exists_] (H1 & H2 & H3 & H4); simpl in *; try lia.
  destruct (isSame a e) eqn:Hae.
  - destruct k as [|k]; [by rewrite (H4 a e) in Hae|].
    f_equal. apply IH. split_and!; [lia|lia| |done].
    intros j a' e' Hj. apply (H3 (S j)). lia.
  - destruct k as [|k]; [done|].
    rewrite (H3 0 a e) in Hae; [done|lia|done|done].
Qed.

Lemma every_same_pairwise added exists_ :
  negb (length added =? length exists_) || negb (every_same added exists_) = false
  ↔ pairwise_same added exists_.
Proof.
  unfold pairwise_same.
  rewrite orb_false_iff, !negb_false_iff, Nat.eqb_eq. split.
  - intros [Hlen Hall]. revert exists_ Hlen Hall.
    induction added as [|a added IH]; intros [|e exists_]; simpl; try done.
    intros [= Hlen] [Hae Hall]%andb_true_iff. constructor; [done|by apply IH].
  - induction 1 as [|a e added exists_ Hae _ [IH1 IH2]]; simpl; [done|].
    rewrite Hae, IH2. by rewrite IH1.
Qed.

(** ** One item, one round *)

(** C8: the record sent to set-entries for an item is the positional
    seven-tuple group, line, start column, end column, combine, start
    inclusive, end inclusive, in that order, each of the three booleans
    sent as 1 when true and 0 when false. *)
Theorem convertHighlightItem_wire group line startCol endCol comb startIncl endIncl :
  convertHighlightItem (mkItem group line startCol endCol comb startIncl endIncl)
  = (group, line, startCol, endCol,
     (if comb then 1 else 0), (if startIncl then 1 else 0), (if endIncl then 1 else 0)).
Proof. reflexivity. Qed.

(** One round on a line where the snapshot has records and the cursor
    yields desired items, marker-capable: the markers of the records past
    the longest common prefix and the encodings of the desired items past it
    are appended; nothing is appended when the prefix covers both. *)
Lemma line_body_marker_capable curr items i st k :
  let exists_ := filter (λ r, res_lnum r = i) curr in
  let added := added_at items i (itemIndex st) in
  exists_ ≠ [] → added ≠ [] →
  longest_common_prefix k added exists_ →
  line_body true (group_highlights curr).2 items i st
  = mkLoop (linesToRemove st)
           (markersToRemove st ++ (res_marker <$> drop k exists_))
           (newItems st ++ (convertHighlightItem <$> drop k added))
           (itemIndex st + length added)
  ∧ (k = length exists_ → k = length added →
     line_body true (group_highlights curr).2 items i st
     = mkLoop (linesToRemove st) (markersToRemove st) (newItems st)
              (itemIndex st + length added)).
Proof.
  intros exists_ added Hex Had Hk.
  apply longest_common_prefix_unique in Hk as ->.
  rewrite line_body_eq, group_highlights_lookup.
  fold exists_ added. unfold line_update.
  destruct added as [|a added'] eqn:Ha; [done|].
  destruct exists_ as [|e exists'] eqn:He; [done|].
  split; [done|].
  intros -> Hlen. rewrite drop_all. rewrite Hlen at 1. rewrite drop_all.
  simpl. by rewrite !app_nil_r.
Qed.

(** For [X, Y, Z] on the backend and [X, Y, W] desired only [Z]'s marker is
    deleted and only [W] is added. *)
Example line_body_marker_capable_XYZ :
  line_body true (group_highlights [rec_X; rec_Y; rec_Z]).2 [item_X; item_Y; item_W] 1 start_state
  = mkLoop [] [res_marker rec_Z] [convertHighlightItem item_W] 3.
Proof.
  refine (proj1 (line_body_marker_capable
                   [rec_X; rec_Y; rec_Z] [item_X; item_Y; item_W] 1 start_state 2 _ _ _)).
  - discriminate.
  - discriminate.
  - repeat split; [simpl; lia | simpl; lia | | ].
    + intros [|[|j]] a e Hj; simpl; try lia; by intros [= <-] [= <-].
    + simpl. by intros a e [= <-] [= <-].
Qed.

(** One round on such a line, not marker-capable: nothing is appended
    when the two sequences agree position by position with equal length;
    otherwise the line and every collected item are appended. *)
Lemma line_body_line_granular curr items i st :
  let exists_ := filter (λ r, res_lnum r = i) curr in
  let added := added_at items i (itemIndex st) in
  exists_ ≠ [] → added ≠ [] →
  (pairwise_same added exists_ →
   line_body false (group_highlights curr).2 items i st
   = mkLoop (linesToRemove st) (markersToRemove st) (newItems st)
            (itemIndex st + length added))
  ∧ (¬ pairwise_same added exists_ →
     line_body false (group_highlights curr).2 items i st
     = mkLoop (linesToRemove st ++ [i]) (markersToRemove st)
              (newItems st ++ (convertHighlightItem <$> added))
              (itemIndex st + length added)).
Proof.
  intros exists_ added Hex Had.
  rewrite line_body_eq, group_highlights_lookup.
  fold exists_ added. unfold line_update.
  destruct added as [|a added'] eqn:Ha; [done|].
  destruct exists_ as [|e exists'] eqn:He; [done|].
  pose proof (every_same_pairwise (a :: added') (e :: exists')) as Hiff.
  destruct (negb _ || negb _); split; intros Hp; try done.
  - by apply Hiff in Hp.
  - destruct Hp. by apply Hiff.
Qed.

(** For [X, Y] on the backend and [X, Y, W] desired the whole line is
    cleared and all three items are added again. *)
Example line_body_line_granular_XY :
  line_body false (group_highlights [rec_X; rec_Y]).2 [item_X; item_Y; item_W] 1 start_state
  = mkLoop [1] [] (convertHighlightItem <$> [item_X; item_Y; item_W]) 3.
Proof.
  refine (proj2 (line_body_line_granular
                   [rec_X; rec_Y] [item_X; item_Y; item_W] 1 start_state _ _) _).
  - discriminate.
  - discriminate.
  - intros Hp. apply Forall2_length in Hp. discriminate.
Qed.

(** ** The applier *)

Lemma applyDiffHighlights_trace bufnr ns priority diff notify nvim :
  applyDiffHighlights bufnr ns priority diff notify nvim
  = if all_empty diff then nvim
    else nvim ++ [PauseNotification] ++ batch_commands bufnr ns priority diff
              ++ [ResumeNotification true notify].
Proof.
  unfold applyDiffHighlights, batch_commands, all_empty, when_nonempty,
    pauseNotification, call_notify, resumeNotification.
  destruct diff as [[|l ls] [|d ds] [|m ms]], notify; simpl;
    by rewrite <- ?app_assoc.
Qed.

(** C4: for every diff the applier invokes nothing at all on the client
    when the three lists are empty, and otherwise opens one batch, queues
    delete-markers, clear-lines and set-entries in that order, each only
    when its list is non-empty, and closes the batch. *)
Theorem applyDiffHighlights_sequence bufnr ns priority diff notify nvim :
  applyDiffHighlights bufnr ns priority diff notify nvim
  = match remove diff, add diff, removeMarkers diff with
    | [], [], [] => nvim
    | _, _, _ =>
        nvim ++ [PauseNotification]
             ++ batch_commands bufnr ns priority diff
             ++ [ResumeNotification true notify]
    end.
Proof.
  rewrite applyDiffHighlights_trace. unfold all_empty.
  by destruct (remove diff), (add diff), (removeMarkers diff).
Qed.

(** ** The scan as a whole *)

Lemma line_body_effect cm curr items j s :
  ∃ (b : bool) (k k' : nat),
    line_body cm (group_highlights curr).2 items j s =
      mkLoop (linesToRemove s ++ (if b then [j] else []))
             (markersToRemove s
                ++ (res_marker <$> drop k (filter (λ r, res_lnum r = j) curr)))
             (newItems s
                ++ (convertHighlightItem <$> drop k' (added_at items j (itemIndex s))))
             (itemIndex s + length (added_at items j (itemIndex s)))
    ∧ (b = true → filter (λ r, res_lnum r = j) curr ≠ []).
Proof.
  rewrite line_body_eq, group_highlights_lookup. apply line_update_shape.
Qed.

Lemma NoDup_fmap_inj {A B} (f : A → B) (l : list A) x y :
  NoDup (f <$> l) → x ∈ l → y ∈ l → f x = f y → x = y.
Proof.
  induction l as [|z l IH]; simpl; [by intros _ ?%elem_of_nil|].
  intros [Hz Hl]%NoDup_cons [->|Hx]%elem_of_cons [->|Hy]%elem_of_cons Hf; try done.
  - destruct Hz. rewrite Hf. by apply list_elem_of_fmap_2.
  - destruct Hz. rewrite <- Hf. by apply list_elem_of_fmap_2.
  - by apply IH.
Qed.

Lemma elem_of_drop_filter_line k j curr r :
  r ∈ drop k (filter (λ r, res_lnum r = j) curr) → r ∈ curr ∧ res_lnum r = j.
Proof.
  intros Hr. eapply elem_of_sublist in Hr; [|apply sublist_drop].
  apply list_elem_of_filter in Hr. tauto.
Qed.

Lemma scan_inv_init curr items a : scan_inv curr items a a (mkLoop [] [] [] 0).
Proof.
  unfold scan_inv; simpl. rewrite take_0.
  split_and!; constructor.
Qed.

Lemma scan_inv_step cm curr items a j s :
  a ≤ j → scan_inv curr items a j s →
  scan_inv curr items a (S j) (line_body cm (group_highlights curr).2 items j s).
Proof.
  intros Haj (I1 & I2 & I3 & I4 & I5 & I6).
  destruct (line_body_effect cm curr items j s) as (b & k & k' & -> & Hb).
  unfold scan_inv; simpl. rewrite take_added.
  assert (Hnew : Forall (λ m, ∃ r, r ∈ curr ∧ res_marker r = m ∧ res_lnum r = j)
                   (res_marker <$> drop k (filter (λ r, res_lnum r = j) curr))).
  { apply Forall_fmap, Forall_forall. intros r Hr.
    apply elem_of_drop_filter_line in Hr as [Hr Hj]. by exists r. }
  split_and!.
  - apply Forall_app; split.
    + eapply Forall_impl; [exact I1|]. simpl; intros; lia.
    + destruct b; repeat constructor; lia.
  - apply StronglySorted_app_2; [|done|destruct b; repeat constructor].
    intros x1 x2 Hx1 Hx2. rewrite Forall_forall in I1. apply I1 in Hx1.
    destruct b; [|by apply elem_of_nil in Hx2].
    apply list_elem_of_singleton in Hx2. lia.
  - apply Forall_app; split.
    + eapply Forall_impl; [exact I3|]. simpl.
      intros m (r & ? & ? & ?). exists r. split_and!; [done|done|lia|lia].
    + eapply Forall_impl; [exact Hnew|]. simpl.
      intros m (r & ? & ? & ?). exists r. split_and!; [done|done|lia|lia].
  - intros Hnd. apply NoDup_app. split_and!; [by apply I4| |].
    + intros m Hm Hm'. rewrite Forall_forall in I3. rewrite Forall_forall in Hnew.
      destruct (I3 m Hm) as (r & Hr & Hrm & Hrl).
      destruct (Hnew m Hm') as (r' & Hr' & Hrm' & Hrl').
      assert (r = r') by (eapply NoDup_fmap_inj; [exact Hnd|done|done|congruence]).
      subst r'. lia.
    + eapply sublist_NoDup; [exact Hnd|]. apply fmap_sublist.
      etrans; [apply sublist_drop|apply sublist_filter].
  - apply Forall_app; split.
    + eapply Forall_impl; [exact I5|]. simpl; intros; lia.
    + eapply Forall_impl; [apply collect_added_line|]. simpl; intros; lia.
  - apply Forall_app; split.
    + eapply Forall_impl; [exact I6|]. simpl.
      intros def (o & Ho & ->). exists o. split; [|done]. apply elem_of_app; by left.
    + apply Forall_fmap, Forall_forall. intros o Ho. exists o. split; [|done].
      apply elem_of_app; right. eapply elem_of_sublist; [exact Ho|apply sublist_drop].
Qed.

Lemma scan_inv_loop cm curr items a n :
  scan_inv curr items a (a + n)
    (line_loop cm (group_highlights curr).2 items n a (mkLoop [] [] [] 0)).
Proof.
  apply (line_loop_ind (scan_inv curr items a)); [apply scan_inv_init|].
  intros j s Hj. apply scan_inv_step. lia.
Qed.

Lemma scan_lines_eq cm items region curr :
  scan_lines cm items region curr =
  match curr with
  | [] => mkLoop [] [] [] 0
  | _ :: _ =>
      line_loop cm (group_highlights curr).2 items
        (S (group_highlights curr).1 - scan_start region) (scan_start region)
        (mkLoop [] [] [] 0)
  end.
Proof.
  unfold scan_lines. destruct (group_highlights curr) as [mx m].
  by destruct curr.
Qed.

Lemma scan_lines_inv cm items region curr :
  ∃ j, scan_inv curr items (scan_start region) j (scan_lines cm items region curr)
       ∧ (curr ≠ [] → j = scan_start region ∨ j = S (group_highlights curr).1).
Proof.
  rewrite scan_lines_eq. destruct curr as [|r curr'].
  - exists (scan_start region). split; [apply scan_inv_init|done].
  - eexists. split; [apply scan_inv_loop|]. intros _. lia.
Qed.

Lemma scan_inv_mono curr items a j j' s :
  j ≤ j' → scan_inv curr items a j s → scan_inv curr items a j' s.
Proof.
  intros Hj (I1 & I2 & I3 & I4 & I5 & I6). unfold scan_inv. split_and!; try done.
  - eapply Forall_impl; [exact I1|]. simpl; intros; lia.
  - eapply Forall_impl; [exact I3|]. simpl.
    intros m (r & ? & ? & ?). exists r. split_and!; [done|done|lia|lia].
  - eapply Forall_impl; [exact I5|]. simpl; intros; lia.
Qed.

(** With a snapshot that lies inside the region the scan never leaves it. *)
Lemma scan_lines_inv_region cm items a b curr :
  Forall (λ r, a ≤ res_lnum r < b) curr →
  scan_inv curr items a b (scan_lines cm items (Some (a, b)) curr).
Proof.
  intros Hcurr. rewrite scan_lines_eq. simpl.
  destruct curr as [|r0 curr'] eqn:Hc.
  - unfold scan_inv; simpl. rewrite take_0. split_and!; constructor.
  - rewrite <- Hc in *. assert (Hne : curr ≠ []) by (by rewrite Hc).
    destruct (group_highlights_max_witness curr Hne) as (r & Hr & Hmax).
    assert (Hr0 : r0 ∈ curr) by (rewrite Hc; constructor).
    pose proof (group_highlights_max_ge curr r0 Hr0) as Hge.
    rewrite Forall_forall in Hcurr.
    pose proof (Hcurr r Hr). pose proof (Hcurr r0 Hr0).
    eapply scan_inv_mono; [|apply scan_inv_loop]. lia.
Qed.

Lemma StronglySorted_lt_NoDup (l : list nat) : StronglySorted lt l → NoDup l.
Proof.
  induction 1 as [|x l _ IH Hx]; constructor; [|done].
  intros Hin. rewrite Forall_forall in Hx. specialize (Hx x Hin). lia.
Qed.

(** ** Claims on the whole diff *)

(** C10: in every diff that [diffHighlights] returns the lines to clear
    are strictly increasing, so none occurs twice, and when the markers of
    the snapshot are pairwise distinct no marker occurs twice among the
    markers to delete. *)
Theorem diff_well_formed ws items region token curr d :
  (diffHighlights ws items region token (Some curr)).2 = Some d →
  StronglySorted lt (remove d)
  ∧ NoDup (remove d)
  ∧ (NoDup (res_marker <$> curr) → NoDup (removeMarkers d)).
Proof.
  unfold diffHighlights. destruct (cancellationRequested token); [done|].
  simpl. intros [= <-]; simpl.
  destruct (scan_lines_inv (checkMarkers ws) (sort_by_lnum items) region curr)
    as (j & (I1 & I2 & I3 & I4 & I5 & I6) & _).
  split_and!; [done|by apply StronglySorted_lt_NoDup|done].
Qed.

Lemma diff_well_formed_witness :
  StronglySorted lt [1; 3]
  ∧ NoDup [1; 3]
  ∧ (NoDup (res_marker <$> [rec_X; mkResult "Info" 3 0 1 14]) → NoDup (@nil nat)).
Proof.
  apply (diff_well_formed ws_lines [item_W] None None
           [rec_X; mkResult "Info" 3 0 1 14]
           (mkDiff [1; 3] [convertHighlightItem item_W] [])).
  reflexivity.
Defined.

(** C5: with a region from [a] to [b] exclusive and a snapshot whose
    records all lie on lines of the region, every line to clear and every
    record whose marker is deleted lies in the region; the per-line loop
    consumes only desired items of the region, so its additions are on
    lines of the region, and a desired item outside the region is left to
    the tail that is appended after the loop. *)
Theorem region_containment ws items a b token curr d :
  Forall (λ r, a ≤ res_lnum r < b) curr →
  (diffHighlights ws items (Some (a, b)) token (Some curr)).2 = Some d →
  let sorted := sort_by_lnum items in
  let st := scan_lines (checkMarkers ws) sorted (Some (a, b)) curr in
  Forall (λ l, a ≤ l < b) (remove d)
  ∧ Forall (λ m, ∃ r, r ∈ curr ∧ res_marker r = m ∧ a ≤ res_lnum r < b) (removeMarkers d)
  ∧ add d = newItems st ++ (convertHighlightItem <$> drop (itemIndex st) sorted)
  ∧ Forall (λ o, a ≤ lnum o < b) (take (itemIndex st) sorted)
  ∧ Forall (λ def, a ≤ def_lnum def < b) (newItems st)
  ∧ (∀ o, o ∈ items → ¬ (a ≤ lnum o < b) → o ∈ drop (itemIndex st) sorted).
Proof.
  intros Hcurr Hd sorted st. revert Hd.
  unfold diffHighlights. destruct (cancellationRequested token); [done|].
  simpl. intros [= <-]; simpl. fold sorted st.
  destruct (scan_lines_inv_region (checkMarkers ws) sorted a b curr Hcurr)
    as (I1 & I2 & I3 & I4 & I5 & I6).
  fold st in I1, I2, I3, I4, I5, I6.
  split_and!; try done.
  - rewrite Forall_forall in I5. rewrite Forall_forall in I6.
    apply Forall_forall. intros def Hdef. destruct (I6 def Hdef) as (o & Ho & ->).
    apply (I5 o Ho).
  - intros o Ho Hout.
    assert (Hs : o ∈ sorted) by (unfold sorted; by rewrite sort_by_lnum_perm).
    rewrite <- (take_drop (itemIndex st) sorted) in Hs.
    apply elem_of_app in Hs as [Hs|Hs]; [|done].
    rewrite Forall_forall in I5. destruct Hout. by apply I5.
Qed.

Lemma region_containment_witness :
  let items := [mkItem "Late" 7 0 1 false false false; item_W;
                mkItem "Mid" 2 0 1 false false false] in
  let curr := [rec_X; mkResult "Info" 3 0 1 14] in
  let sorted := sort_by_lnum items in
  let st := scan_lines (checkMarkers ws_markers) sorted (Some (1, 4)) curr in
  Forall (λ l, 1 ≤ l < 4) []
  ∧ Forall (λ m, ∃ r, r ∈ curr ∧ res_marker r = m ∧ 1 ≤ res_lnum r < 4) [10; 14]
  ∧ (convertHighlightItem <$> sorted)
    = newItems st ++ (convertHighlightItem <$> drop (itemIndex st) sorted)
  ∧ Forall (λ o, 1 ≤ lnum o < 4) (take (itemIndex st) sorted)
  ∧ Forall (λ def, 1 ≤ def_lnum def < 4) (newItems st)
  ∧ (∀ o, o ∈ items → ¬ (1 ≤ lnum o < 4) → o ∈ drop (itemIndex st) sorted).
Proof.
  intros items curr.
  refine (region_containment ws_markers items 1 4 None curr
            (mkDiff [] (convertHighlightItem <$> sort_by_lnum items) [10; 14]) _ _).
  - repeat constructor; simpl; lia.
  - reflexivity.
Defined.

(** ** The cursor on a sorted array *)

Lemma filter_line_nil i (l : list HighlightItem) :
  Forall (λ o, lnum o ≠ i) l → filter (λ o, lnum o = i) l = [].
Proof.
  induction 1 as [|o l Ho _ IH]; [done|].
  rewrite filter_cons. by destruct (decide (lnum o = i)).
Qed.

Lemma collect_added_sorted i rest j :
  StronglySorted lnum_le rest → Forall (λ o, i ≤ lnum o) rest →
  (collect_added i rest j).1 = filter (λ o, lnum o = i) rest
  ∧ Forall (λ o, S i ≤ lnum o) (drop (length (collect_added i rest j).1) rest).
Proof.
  intros Hs. revert j. induction Hs as [|o rest Hs IH Ho]; intros j Hge; simpl.
  - split; [done|constructor].
  - apply Forall_cons in Hge as [Hio Hge]. rewrite filter_cons.
    destruct (Nat.eqb_spec (lnum o) i) as [Heq|Hne].
    + destruct (IH (S j) Hge) as [IH1 IH2].
      destruct (collect_added i rest (S j)) as [ad idx]; simpl in *.
      destruct (decide (lnum o = i)); [|done]. by rewrite <- IH1.
    + simpl. destruct (decide (lnum o = i)); [done|].
      assert (Hgt : Forall (λ o', S i ≤ lnum o') rest).
      { eapply Forall_impl; [exact Ho|]. unfold lnum_le. simpl; intros; lia. }
      split.
      * symmetry. apply filter_line_nil.
        eapply Forall_impl; [exact Hgt|]. simpl; intros; lia.
      * constructor; [lia|done].
Qed.

Lemma added_at_sorted items i idx :
  StronglySorted lnum_le items → cursor_ok items i idx →
  added_at items i idx = filter (λ o, lnum o = i) items
  ∧ cursor_ok items (S i) (idx + length (added_at items i idx)).
Proof.
  intros Hs [Hlt Hge].
  assert (Hrest : StronglySorted lnum_le (drop idx items)).
  { rewrite <- (take_drop idx items) in Hs. by apply StronglySorted_app_1_r in Hs. }
  destruct (collect_added_sorted i (drop idx items) idx Hrest Hge) as [H1 H2].
  fold (added_at items i idx) in H1, H2. split.
  - rewrite H1. rewrite <- (take_drop idx items) at 2.
    rewrite filter_app, (filter_line_nil i (take idx items)); [done|].
    eapply Forall_impl; [exact Hlt|]. simpl; intros; lia.
  - split.
    + rewrite take_added. apply Forall_app; split.
      * eapply Forall_impl; [exact Hlt|]. simpl; intros; lia.
      * eapply Forall_impl; [apply collect_added_line|]. simpl; intros; lia.
    + by rewrite <- drop_drop.
Qed.

(** ** A snapshot that already matches *)

Lemma skip_same_pairwise added exists_ :
  pairwise_same added exists_ →
  skip_same added exists_ = length added ∧ skip_same added exists_ = length exists_.
Proof.
  induction 1 as [|a e added exists_ Hae _ [IH1 IH2]]; simpl; [done|].
  rewrite Hae. by rewrite IH1 at 1; rewrite IH2.
Qed.

Lemma line_update_same cm i ex ad idx st :
  pairwise_same ad ex →
  line_update cm i ex ad idx st
  = mkLoop (linesToRemove st) (markersToRemove st) (newItems st) idx.
Proof.
  intros Hp. unfold line_update.
  destruct Hp as [|a e ad ex Hae Hp]; [done|].
  assert (Hp' : pairwise_same (a :: ad) (e :: ex)) by by constructor.
  destruct cm.
  - destruct (skip_same_pairwise _ _ Hp') as [H1 H2].
    cbv zeta. rewrite H1 at 2. rewrite H2 at 1. rewrite !drop_all. simpl.
    by rewrite !app_nil_r.
  - apply every_same_pairwise in Hp'. by rewrite Hp'.
Qed.

Lemma consistent_line_occupied desired curr o :
  consistent desired curr → o ∈ desired → ∃ r, r ∈ curr ∧ res_lnum r = lnum o.
Proof.
  intros Hc Ho. specialize (Hc (lnum o)).
  assert (Hin : o ∈ filter (λ o', lnum o' = lnum o) desired)
    by by apply list_elem_of_filter.
  destruct (filter (λ o', lnum o' = lnum o) desired) as [|o1 l1];
    [by apply elem_of_nil in Hin|].
  inversion Hc as [|? r ? l2 _ _ Heq1 Heq2]; subst.
  exists r. apply and_comm, (list_elem_of_filter (λ r, res_lnum r = lnum o)).
  rewrite <- Heq2. constructor.
Qed.

Lemma consistent_sorted desired curr :
  consistent desired curr → consistent (sort_by_lnum desired) curr.
Proof. intros Hc l. rewrite sort_by_lnum_stable. apply Hc. Qed.

Lemma idle_inv_step cm curr items j s :
  StronglySorted lnum_le items → consistent items curr →
  idle_inv items j s →
  idle_inv items (S j) (line_body cm (group_highlights curr).2 items j s).
Proof.
  intros Hs Hc (H1 & H2 & H3 & Hcur).
  destruct (added_at_sorted items j (itemIndex s) Hs Hcur) as [Had Hcur'].
  rewrite line_body_eq, group_highlights_lookup.
  rewrite line_update_same by (rewrite Had; apply Hc).
  by unfold idle_inv.
Qed.

Lemma idle_scan cm items region curr :
  StronglySorted lnum_le items → consistent items curr →
  Forall (λ o, scan_start region ≤ lnum o) items →
  ∃ j, idle_inv items j (scan_lines cm items region curr)
       ∧ (curr ≠ [] → (group_highlights curr).1 < j).
Proof.
  intros Hs Hc Hstart. rewrite scan_lines_eq.
  assert (H0 : idle_inv items (scan_start region) (mkLoop [] [] [] 0)).
  { unfold idle_inv, cursor_ok; simpl. rewrite take_0, drop_0.
    split_and!; done. }
  destruct curr as [|r curr'].
  - exists (scan_start region). by split.
  - eexists. split.
    + apply (line_loop_ind (idle_inv items)); [exact H0|].
      intros j s _. by apply idle_inv_step.
    + intros _. lia.
Qed.

Lemma filter_line_region_reply region backend l :
  filter (λ r, res_lnum r = l) (region_reply region backend)
  = match region with
    | Some (a, b) =>
        if decide (a ≤ l < b) then filter (λ r, res_lnum r = l) backend else []
    | None => filter (λ r, res_lnum r = l) backend
    end.
Proof.
  destruct region as [[a b]|]; [|done]. simpl.
  induction backend as [|r backend IH]; [by destruct (decide _)|].
  rewrite (filter_cons (λ r, a ≤ res_lnum r < b)), (filter_cons (λ r, res_lnum r = l)).
  destruct (decide (a ≤ res_lnum r < b)) as [Hin|Hout].
  - rewrite filter_cons, IH.
    destruct (decide (res_lnum r = l)) as [Hl|Hl]; [|done].
    rewrite <- Hl. by destruct (decide (a ≤ res_lnum r < b)).
  - rewrite IH. destruct (decide (res_lnum r = l)) as [Hl|Hl]; [|done].
    rewrite <- Hl. by destruct (decide (a ≤ res_lnum r < b)).
Qed.

(** A backend state that matches desired items which all lie in the region
    gives a reply that holds records of the region only and matches them
    too, so the recomputed diff is then empty. *)
Lemma region_reply_consistent region desired backend :
  items_within region desired → consistent desired backend →
  snapshot_within region (region_reply region backend)
  ∧ consistent desired (region_reply region backend).
Proof.
  intros Hin Hc. split.
  - destruct region as [[a b]|]; [|done]. simpl.
    apply Forall_forall. intros r Hr. by apply list_elem_of_filter in Hr as [? _].
  - intros l. rewrite filter_line_region_reply.
    destruct region as [[a b]|]; [|apply Hc]. simpl in Hin.
    destruct (decide (a ≤ l < b)) as [Hl|Hl]; [apply Hc|].
    rewrite filter_line_nil; [constructor|].
    eapply Forall_impl; [exact Hin|]. simpl; intros; lia.
Qed.

(** C1 as stated fails: with the region from line 5 to line 9 and desired
    items on line 1 and on line 7, a backend state that holds exactly these
    two matches the desired items; the reply for the region holds the line
    7 record only, and the recomputed diff deletes its marker and adds both
    items. *)
Lemma idempotence_fails_outside_region :
  consistent [item_X; item_late] [rec_X; rec_late]
  ∧ region_reply (Some (5, 9)) [rec_X; rec_late] = [rec_late]
  ∧ (diffHighlights ws_markers [item_X; item_late] (Some (5, 9)) None
       (Some (region_reply (Some (5, 9)) [rec_X; rec_late]))).2
    = Some (mkDiff [] [convertHighlightItem item_X; convertHighlightItem item_late]
                   [res_marker rec_late]).
Proof.
  split_and!; try reflexivity.
  intros l. destruct (decide (l = 1)) as [->|H1]; [repeat constructor|].
  destruct (decide (l = 7)) as [->|H7]; [repeat constructor|].
  rewrite !filter_cons, !filter_nil; simpl.
  repeat case_decide; try lia. constructor.
Qed.

(** C1, amended: when the snapshot the recomputation receives holds only
    records of the region, if one is passed, and matches the desired items,
    line by line, in order and under the four-field comparison, the diff
    recomputed for the same desired items has its three lists empty. *)
Theorem reconcile_idempotent ws desired region token curr :
  snapshot_within region curr →
  consistent desired curr →
  cancellationRequested token = false →
  (diffHighlights ws desired region token (Some curr)).2 = Some (mkDiff [] [] []).
Proof.
  intros Hreg Hc Htok. unfold diffHighlights. rewrite Htok. simpl.
  set (sorted := sort_by_lnum desired).
  assert (Hocc : ∀ o, o ∈ sorted → ∃ r, r ∈ curr ∧ res_lnum r = lnum o).
  { intros o Ho. apply (consistent_line_occupied desired); [done|].
    unfold sorted in Ho. by rewrite sort_by_lnum_perm in Ho. }
  assert (Hstart : Forall (λ o, scan_start region ≤ lnum o) sorted).
  { apply Forall_forall. intros o Ho. destruct (Hocc o Ho) as (r & Hr & Hl).
    destruct region as [[a b]|]; simpl in *; [|lia].
    rewrite Forall_forall in Hreg. specialize (Hreg r Hr). lia. }
  destruct (idle_scan (checkMarkers ws) sorted region curr) as
    (j & (-> & -> & -> & _ & Hrest) & Hj);
    [apply sort_by_lnum_sorted|by apply consistent_sorted|done|].
  set (st := scan_lines (checkMarkers ws) sorted region curr) in *.
  destruct (drop (itemIndex st) sorted) as [|o rest] eqn:Hdrop; [done|].
  exfalso.
  assert (Ho : o ∈ sorted).
  { rewrite <- (take_drop (itemIndex st) sorted), Hdrop.
    apply elem_of_app; right. constructor. }
  destruct (Hocc o Ho) as (r & Hr & Hl).
  apply Forall_cons in Hrest as [Hjo _].
  pose proof (group_highlights_max_ge curr r Hr).
  assert (curr ≠ []) by (intros ->; by apply elem_of_nil in Hr).
  specialize (Hj ltac:(done)). lia.
Qed.

Lemma reconcile_idempotent_witness :
  (diffHighlights ws_markers [item_X; item_Y; item_W] (Some (1, 2)) None
     (Some [rec_X; rec_Y; rec_W])).2
  = Some (mkDiff [] [] []).
Proof.
  apply reconcile_idempotent.
  - repeat constructor; simpl; lia.
  - intros l. destruct (decide (l = 1)) as [->|Hl].
    + repeat constructor.
    + rewrite !filter_cons, !filter_nil; simpl.
      repeat case_decide; try lia. constructor.
  - reflexivity.
Defined.

(** ** The caller's array *)

(** C6 as stated fails: the array [item_late; item_X] comes back as
    [item_X; item_late]. *)
Lemma caller_array_reordered :
  (diffHighlights ws_markers [item_late; item_X] None None (Some [])).1
  ≠ [item_late; item_X].
Proof. vm_compute. discriminate. Qed.

(** C6, amended: [diffHighlights] sorts the caller's array itself.  When it
    returns a diff the array holds the same items rearranged in ascending
    line order with the items of each line in their previous order, and it
    is as before if it was already in ascending line order; when it returns
    null the array is untouched. *)
Theorem caller_array_sorted_in_place ws items region token curr :
  let after := (diffHighlights ws items region token curr).1 in
  match (diffHighlights ws items region token curr).2 with
  | None => after = items
  | Some _ =>
      after ≡ₚ items
      ∧ StronglySorted lnum_le after
      ∧ (∀ l, filter (λ o, lnum o = l) after = filter (λ o, lnum o = l) items)
      ∧ (StronglySorted lnum_le items → after = items)
  end.
Proof.
  unfold diffHighlights. destruct curr as [curr|]; [|done].
  destruct (cancellationRequested token); [done|]. simpl.
  split_and!.
  - apply sort_by_lnum_perm.
  - apply sort_by_lnum_sorted.
  - intros l. apply sort_by_lnum_stable.
  - apply sort_by_lnum_id.
Qed.

Lemma caller_array_sorted_in_place_witness :
  [item_X; item_late] ≡ₚ [item_late; item_X]
  ∧ StronglySorted lnum_le [item_X; item_late]
  ∧ (∀ l, filter (λ o, lnum o = l) [item_X; item_late]
          = filter (λ o, lnum o = l) [item_late; item_X])
  ∧ (StronglySorted lnum_le [item_late; item_X] → [item_X; item_late] = [item_late; item_X]).
Proof.
  exact (caller_array_sorted_in_place ws_markers [item_late; item_X] None None (Some [])).
Defined.

(** ** Cancellation *)

(** C7 as stated fails: with a cancelled token no diff is returned. *)
Lemma diffHighlights_cancelled_no_diff :
  ¬ ∃ d, (diffHighlights ws_markers [item_X] None (Some (mkToken true))
            (Some [rec_X])).2 = Some d.
Proof. intros [d Hd]. vm_compute in Hd. discriminate. Qed.

(** C7, amended: [diffHighlights] takes an optional cancellation token; it
    returns null exactly when the reply is null or the token is cancelled
    once the reply is in, and a diff in every other case.
    [applyDiffHighlights] takes no token: whatever the diff it returns with
    the client either untouched or with one batch opened and closed. *)
Theorem cancellation_only_in_diffHighlights :
  (∀ ws items region token curr,
      (diffHighlights ws items region token curr).2 = None
      ↔ curr = None ∨ cancellationRequested token = true)
  ∧ (∀ ws items region token curr,
        curr ≠ None → cancellationRequested token = false →
        ∃ d, (diffHighlights ws items region token curr).2 = Some d)
  ∧ (∀ bufnr ns priority diff notify nvim,
        applyDiffHighlights bufnr ns priority diff notify nvim = nvim
        ∨ ∃ cmds, applyDiffHighlights bufnr ns priority diff notify nvim
                  = nvim ++ [PauseNotification] ++ cmds
                         ++ [ResumeNotification true notify]).
Proof.
  split_and!.
  - intros ws items region token curr. unfold diffHighlights.
    destruct curr as [curr|]; [|by split; [left|]].
    destruct (cancellationRequested token); simpl; [by split; [right|]|].
    split; [done|]. by intros [|].
  - intros ws items region token curr Hcurr Htok. unfold diffHighlights.
    destruct curr as [curr|]; [|done]. rewrite Htok. simpl. by eexists.
  - intros. rewrite applyDiffHighlights_trace.
    destruct (all_empty diff); [by left|right; by eexists].
Qed.

Lemma cancellation_only_in_diffHighlights_witness :
  ∃ d, (diffHighlights ws_markers [item_X] None (Some (mkToken false))
          (Some [rec_X])).2 = Some d.
Proof.
  apply (proj1 (proj2 cancellation_only_in_diffHighlights)).
  - discriminate.
  - reflexivity.
Defined.

(** ** The pickers *)

(** C9 as stated fails: with a token that is already cancelled each of the
    three pickers still takes its turn on the mutex. *)
Lemma pickers_acquire_mutex_when_cancelled :
  MutexAcquire ∈ (showQuickPick [ItemText "a"] None (Some (mkToken true)) None).1
  ∧ MutexAcquire ∈ (showMenuPicker ["a"; "b"]%string (Some (mkToken true)) 0%Z).1
  ∧ MutexAcquire ∈ (showPickerDialog ["a"; "b"]%string (Some (mkToken true)) None).1.
Proof. split_and!; vm_compute; constructor. Qed.

(** C9, amended: the three pickers test the token once, right after the
    mutex is acquired and before anything is presented.  Called with a token
    that is already cancelled ([showQuickPick] with at least one item) each
    acquires the mutex, presents no surface, releases the mutex and resolves
    to its cancelled value: undefined for [showQuickPick] and
    [showPickerDialog], -1 for [showMenuPicker]. *)
Theorem pickers_cancelled_after_acquire token :
  isCancellationRequested token = true →
  (∀ items options finished,
      items ≠ [] →
      showQuickPick items options (Some token) finished
      = ([MutexAcquire; MutexRelease], PickedUndefined))
  ∧ (∀ A (items : list A) selected,
        showMenuPicker items (Some token) selected
        = ([MutexAcquire; MutexRelease], (-1)%Z))
  ∧ (∀ A (items : list A) picked,
        showPickerDialog items (Some token) picked
        = ([MutexAcquire; MutexRelease], None)).
Proof.
  intros Htok. split_and!.
  - intros [|it items] options finished Hne; [done|].
    unfold showQuickPick, mutex_use. simpl. by rewrite Htok.
  - intros A items selected. unfold showMenuPicker, mutex_use. by rewrite Htok.
  - intros A items picked. unfold showPickerDialog, mutex_use. by rewrite Htok.
Qed.

Lemma pickers_cancelled_after_acquire_witness :
  showMenuPicker ["a"; "b"]%string (Some (mkToken true)) 1%Z
  = ([MutexAcquire; MutexRelease], (-1)%Z).
Proof.
  apply (proj1 (proj2 (pickers_cancelled_after_acquire (mkToken true) eq_refl))).
Defined.

(** ** What the diff holds for one line *)

Lemma line_loop_split cm hlmap items n1 n2 j s :
  line_loop cm hlmap items (n1 + n2) j s
  = line_loop cm hlmap items n2 (j + n1) (line_loop cm hlmap items n1 j s).
Proof.
  revert j s; induction n1 as [|n1 IH]; intros j s; simpl.
  - by rewrite Nat.add_0_r.
  - rewrite IH. by replace (S j + n1) with (j + S n1) by lia.
Qed.

Lemma def_lnum_convert o : def_lnum (convertHighlightItem o) = lnum o.
Proof. done. Qed.

(** The rounds for lines [j] to [j + n - 1] only append, and what they
    append belongs to those lines. *)
Lemma line_loop_extends cm curr items n j s :
  ∃ L M A,
    linesToRemove (line_loop cm (group_highlights curr).2 items n j s)
      = linesToRemove s ++ L
    ∧ markersToRemove (line_loop cm (group_highlights curr).2 items n j s)
      = markersToRemove s ++ M
    ∧ newItems (line_loop cm (group_highlights curr).2 items n j s)
      = newItems s ++ A
    ∧ itemIndex s ≤ itemIndex (line_loop cm (group_highlights curr).2 items n j s)
    ∧ Forall (λ l, j ≤ l < j + n) L
    ∧ markers_on curr (λ l, j ≤ l < j + n) M
    ∧ Forall (λ def, j ≤ def_lnum def < j + n) A.
Proof.
  revert j s; induction n as [|n IH]; intros j s; simpl.
  - exists [], [], []. rewrite !app_nil_r. split_and!; try done; constructor.
  - destruct (IH (S j) (line_body cm (group_highlights curr).2 items j s))
      as (L & M & A & -> & -> & -> & Hidx & HL & HM & HA).
    destruct (line_body_effect cm curr items j s) as (b & k & k' & Hbody & _).
    rewrite Hbody in *. simpl in *.
    eexists _, _, _. rewrite <- !app_assoc.
    split_and!; [reflexivity|reflexivity|reflexivity|lia| | |].
    + apply Forall_app; split.
      * destruct b; repeat constructor; lia.
      * eapply Forall_impl; [exact HL|]. simpl; intros; lia.
    + apply Forall_app; split.
      * apply Forall_fmap, Forall_forall. intros r Hr.
        apply elem_of_drop_filter_line in Hr as [Hr Hj]. exists r.
        split_and!; [done|done|lia|lia].
      * eapply Forall_impl; [exact HM|]. simpl.
        intros m (r & ? & ? & ?). exists r. split_and!; [done|done|lia|lia].
    + apply Forall_app; split.
      * apply Forall_fmap, Forall_forall. intros o Ho. simpl.
        eapply elem_of_sublist in Ho; [|apply sublist_drop].
        pose proof (collect_added_line j (drop (itemIndex s) items) (itemIndex s)) as Hl.
        rewrite Forall_forall in Hl. rewrite def_lnum_convert, (Hl o Ho). lia.
      * eapply Forall_impl; [exact HA|]. simpl; intros; lia.
Qed.

Lemma line_update_from_empty cm i ex ad idx st :
  line_update cm i ex ad idx st
  = mkLoop (linesToRemove st ++ linesToRemove (line_update cm i ex ad 0 (mkLoop [] [] [] 0)))
           (markersToRemove st ++ markersToRemove (line_update cm i ex ad 0 (mkLoop [] [] [] 0)))
           (newItems st ++ newItems (line_update cm i ex ad 0 (mkLoop [] [] [] 0)))
           idx.
Proof.
  unfold line_update.
  destruct ad as [|a ad], ex as [|e ex], cm;
    try destruct (negb _ || negb _); simpl; by rewrite ?app_nil_r.
Qed.

(** A cursor that finds items of line [i] has dealt with all earlier items. *)
Lemma cursor_ok_of_added curr items a i s :
  StronglySorted lnum_le items → scan_inv curr items a i s →
  added_at items i (itemIndex s) ≠ [] → cursor_ok items i (itemIndex s).
Proof.
  intros Hs (_ & _ & _ & _ & I5 & _) Had. split.
  - eapply Forall_impl; [exact I5|]. simpl; intros; lia.
  - pose proof (collect_added_line i (drop (itemIndex s) items) (itemIndex s)) as Hl.
    pose proof (drop_added items i (itemIndex s)) as Hd.
    fold (added_at items i (itemIndex s)) in Hl.
    destruct (added_at items i (itemIndex s)) as [|o ad]; [done|].
    apply Forall_cons in Hl as [Ho _].
    rewrite <- (take_drop (itemIndex s) items) in Hs.
    apply StronglySorted_app_1_r in Hs. rewrite Hd in *. simpl in Hs.
    apply StronglySorted_inv in Hs as [_ Hall].
    constructor; [lia|]. eapply Forall_impl; [exact Hall|].
    unfold lnum_le. simpl; intros; lia.
Qed.

Lemma filter_none {A} (P : A → Prop) `{∀ x, Decision (P x)} (l : list A) :
  Forall (λ x, ¬ P x) l → filter P l = [].
Proof.
  induction 1 as [|x l Hx _ IH]; [done|].
  rewrite filter_cons. by destruct (decide (P x)).
Qed.

Lemma filter_all {A} (P : A → Prop) `{∀ x, Decision (P x)} (l : list A) :
  Forall P l → filter P l = l.
Proof.
  induction 1 as [|x l Hx _ IH]; [done|].
  rewrite filter_cons. destruct (decide (P x)); [by rewrite IH|done].
Qed.

(** The share of line [i] in the outcome of the scan, when the snapshot has
    records on that line and the cursor yields items for it: what the other
    lines contribute lies before and after it. *)
Lemma scan_line_report cm items region curr i :
  StronglySorted lnum_le items →
  scan_start region ≤ i →
  filter (λ r, res_lnum r = i) curr ≠ [] →
  added_on cm items region curr i ≠ [] →
  let u := line_update cm i (filter (λ r, res_lnum r = i) curr)
             (added_on cm items region curr i) 0 (mkLoop [] [] [] 0) in
  let st := scan_lines cm items region curr in
  added_on cm items region curr i = filter (λ o, lnum o = i) items
  ∧ ∃ L1 L2 M1 M2 A1 A2,
      linesToRemove st = L1 ++ linesToRemove u ++ L2
      ∧ markersToRemove st = M1 ++ markersToRemove u ++ M2
      ∧ newItems st ++ (convertHighlightItem <$> drop (itemIndex st) items)
        = A1 ++ newItems u ++ A2
      ∧ Forall (λ l, l < i) L1 ∧ Forall (λ l, i < l) L2
      ∧ markers_on curr (λ l, l < i) M1 ∧ markers_on curr (λ l, i < l) M2
      ∧ Forall (λ def, def_lnum def < i) A1 ∧ Forall (λ def, i < def_lnum def) A2.
Proof.
  intros Hs Hstart Hex Had u st. unfold added_on in *.
  set (e := entering cm items region curr i) in *.
  set (ad := added_at items i (itemIndex e)) in *.
  set (ex := filter (λ r, res_lnum r = i) curr) in *.
  assert (He : scan_inv curr items (scan_start region) i e).
  { replace i with (scan_start region + (i - scan_start region)) at 1 by lia.
    apply scan_inv_loop. }
  pose proof (cursor_ok_of_added _ _ _ _ _ Hs He Had) as Hcur.
  destruct (added_at_sorted items i (itemIndex e) Hs Hcur) as [Hfilter [_ Hrest]].
  fold ad in Hfilter, Hrest. split; [done|].
  assert (Hmax : i ≤ (group_highlights curr).1 ∧ curr ≠ []).
  { destruct ex as [|r ex'] eqn:Hr; [done|].
    assert (Hin : r ∈ filter (λ r, res_lnum r = i) curr) by (fold ex; rewrite Hr; constructor).
    apply list_elem_of_filter in Hin as [<- Hin].
    split; [by apply group_highlights_max_ge|]. intros ->. by apply elem_of_nil in Hin. }
  destruct Hmax as [Hmax Hne].
  assert (Hst : st = line_loop cm (group_highlights curr).2 items
                   ((group_highlights curr).1 - i) (S i)
                   (line_body cm (group_highlights curr).2 items i e)).
  { unfold st. rewrite scan_lines_eq. destruct curr as [|r0 curr']; [done|].
    replace (S (group_highlights (r0 :: curr')).1 - scan_start region)
      with ((i - scan_start region) + S ((group_highlights (r0 :: curr')).1 - i)) by lia.
    rewrite line_loop_split. fold (entering cm items region (r0 :: curr') i). fold e.
    replace (scan_start region + (i - scan_start region)) with i by lia. done. }
  rewrite line_body_eq, group_highlights_lookup in Hst. fold ex ad in Hst.
  rewrite line_update_from_empty in Hst. fold u in Hst.
  destruct (line_loop_extends cm curr items ((group_highlights curr).1 - i) (S i)
              (mkLoop (linesToRemove e ++ linesToRemove u)
                      (markersToRemove e ++ markersToRemove u)
                      (newItems e ++ newItems u) (itemIndex e + length ad)))
    as (L2 & M2 & A2 & HL & HM & HA & Hidx & HL2 & HM2 & HA2).
  rewrite <- Hst in HL, HM, HA, Hidx. simpl in HL, HM, HA, Hidx.
  destruct He as (I1 & _ & I3 & _ & I5 & I6).
  exists (linesToRemove e), L2, (markersToRemove e), M2, (newItems e),
    (A2 ++ (convertHighlightItem <$> drop (itemIndex st) items)).
  rewrite HL, HM, HA, <- !app_assoc.
  split_and!; try done.
  - eapply Forall_impl; [exact I1|]. simpl; intros; lia.
  - eapply Forall_impl; [exact HL2|]. simpl; intros; lia.
  - eapply Forall_impl; [exact I3|]. simpl.
    intros m (r & ? & ? & ?). exists r. split_and!; [done|done|lia].
  - eapply Forall_impl; [exact HM2|]. simpl.
    intros m (r & ? & ? & ?). exists r. split_and!; [done|done|lia].
  - rewrite Forall_forall in I5. rewrite Forall_forall in I6.
    apply Forall_forall. intros def Hdef. destruct (I6 def Hdef) as (o & Ho & ->).
    rewrite def_lnum_convert. specialize (I5 o Ho). lia.
  - apply Forall_app; split.
    + eapply Forall_impl; [exact HA2|]. simpl; intros; lia.
    + apply Forall_fmap.
      replace (itemIndex st) with
        ((itemIndex e + length ad) + (itemIndex st - (itemIndex e + length ad))) by lia.
      rewrite <- drop_drop. apply Forall_drop.
      eapply Forall_impl; [exact Hrest|]. simpl. intros o Ho.
      rewrite def_lnum_convert. lia.
Qed.

Lemma marker_mode_no_clear items region curr :
  linesToRemove (scan_lines true items region curr) = [].
Proof.
  rewrite scan_lines_eq. destruct curr as [|r curr']; [done|].
  apply (line_loop_ind (λ _ s, linesToRemove s = [])); [done|].
  intros j s _ Hs. rewrite line_body_eq. unfold line_update.
  by destruct (added_at _ _ _), (exists_at _ _).
Qed.

Lemma line_mode_no_markers items region curr :
  markersToRemove (scan_lines false items region curr) = [].
Proof.
  rewrite scan_lines_eq. destruct curr as [|r curr']; [done|].
  apply (line_loop_ind (λ _ s, markersToRemove s = [])); [done|].
  intros j s _ Hs. rewrite line_body_eq. unfold line_update.
  destruct (added_at _ _ _), (exists_at _ _); try done.
  by destruct (negb _ || negb _).
Qed.

(** The two sample reconciliations, end to end. *)
Example diffHighlights_XYZ_XYW :
  (diffHighlights ws_markers [item_X; item_Y; item_W] None None
     (Some [rec_X; rec_Y; rec_Z])).2
  = Some (mkDiff [] [convertHighlightItem item_W] [res_marker rec_Z]).
Proof. reflexivity. Qed.

Example diffHighlights_XY_XYW :
  (diffHighlights ws_lines [item_X; item_Y; item_W] None None
     (Some [rec_X; rec_Y])).2
  = Some (mkDiff [1] (convertHighlightItem <$> [item_X; item_Y; item_W]) []).
Proof. reflexivity. Qed.

Lemma line_update_marker_mode i ex ad :
  ex ≠ [] → ad ≠ [] →
  line_update true i ex ad 0 (mkLoop [] [] [] 0)
  = mkLoop [] (res_marker <$> drop (skip_same ad ex) ex)
           (convertHighlightItem <$> drop (skip_same ad ex) ad) 0.
Proof. unfold line_update. destruct ad; [done|]. by destruct ex. Qed.

Lemma line_update_line_mode i ex ad :
  ex ≠ [] → ad ≠ [] →
  (pairwise_same ad ex →
   line_update false i ex ad 0 (mkLoop [] [] [] 0) = mkLoop [] [] [] 0)
  ∧ (¬ pairwise_same ad ex →
     line_update false i ex ad 0 (mkLoop [] [] [] 0)
     = mkLoop [i] [] (convertHighlightItem <$> ad) 0).
Proof.
  intros Hex Had. split; intros Hp.
  - by rewrite line_update_same.
  - unfold line_update. destruct ad as [|a ad]; [done|].
    destruct ex as [|e ex]; [done|].
    destruct (negb _ || negb _) eqn:Hc; [done|].
    destruct Hp. by apply every_same_pairwise.
Qed.

(** Take a line the scan visits on which the snapshot has records and
    the inner loop collects desired items, which then are all the desired
    items of that line, and let [k] be the length of their longest common
    prefix under the four-field comparison.  For a marker-capable backend
    the diff clears no line; the markers it deletes are, between those of
    records on earlier and on later lines, exactly the markers of the
    records past the prefix; the items it adds on that line are exactly the
    encodings of the desired items past the prefix.  When the prefix covers
    both sequences the diff deletes no marker for that line and adds no
    item on it. *)
Lemma prefix_minimal_at_cursor ws items region token curr d i k :
  checkMarkers ws = true →
  (diffHighlights ws items region token (Some curr)).2 = Some d →
  let exists_ := filter (λ r, res_lnum r = i) curr in
  let added := added_on true (sort_by_lnum items) region curr i in
  scan_start region ≤ i → exists_ ≠ [] → added ≠ [] →
  longest_common_prefix k added exists_ →
  added = filter (λ o, lnum o = i) items
  ∧ remove d = []
  ∧ (∃ before after,
        removeMarkers d = before ++ (res_marker <$> drop k exists_) ++ after
        ∧ markers_on curr (λ l, l < i) before
        ∧ markers_on curr (λ l, i < l) after)
  ∧ filter (λ def, def_lnum def = i) (add d) = (convertHighlightItem <$> drop k added)
  ∧ (k = length exists_ → k = length added →
     markers_on curr (λ l, l ≠ i) (removeMarkers d)
     ∧ filter (λ def, def_lnum def = i) (add d) = []).
Proof.
  intros Hcm Hd exists_ added Hstart Hex Had Hk. revert Hd.
  unfold diffHighlights. destruct (cancellationRequested token); [done|].
  simpl. intros [= <-]; simpl. rewrite Hcm.
  apply longest_common_prefix_unique in Hk as ->.
  destruct (scan_line_report true (sort_by_lnum items) region curr i)
    as (Hall & L1 & L2 & M1 & M2 & A1 & A2 & HL & HM & HA & HL1 & HL2 & HM1 & HM2 & HA1 & HA2);
    [apply sort_by_lnum_sorted|done..|].
  fold exists_ added in Hall, HL, HM, HA.
  rewrite line_update_marker_mode in HL, HM, HA by done. simpl in HL, HM, HA.
  assert (Hadd : filter (λ def, def_lnum def = i)
                   (A1 ++ (convertHighlightItem <$> drop (skip_same added exists_) added) ++ A2)
                 = convertHighlightItem <$> drop (skip_same added exists_) added).
  { rewrite !filter_app.
    rewrite (filter_none _ A1), (filter_none _ A2), app_nil_r; simpl.
    - apply filter_all, Forall_fmap, Forall_forall. intros o Ho. simpl.
      eapply elem_of_sublist in Ho; [|apply sublist_drop].
      rewrite Hall in Ho. rewrite sort_by_lnum_stable in Ho.
      apply list_elem_of_filter in Ho as [Ho _]. by rewrite def_lnum_convert.
    - eapply Forall_impl; [exact HA2|]. simpl; intros; lia.
    - eapply Forall_impl; [exact HA1|]. simpl; intros; lia. }
  split_and!.
  - by rewrite Hall, sort_by_lnum_stable.
  - apply marker_mode_no_clear.
  - exists M1, M2. by rewrite HM.
  - by rewrite HA.
  - intros Hke Hka. split.
    + rewrite HM, Hke, drop_all. simpl.
      apply Forall_app; split.
      * eapply Forall_impl; [exact HM1|]. simpl.
        intros m (r & ? & ? & ?). exists r. split_and!; [done|done|lia].
      * eapply Forall_impl; [exact HM2|]. simpl.
        intros m (r & ? & ? & ?). exists r. split_and!; [done|done|lia].
    + rewrite HA, Hadd, Hka. by rewrite drop_all.
Qed.

(** For [X, Y, Z] on the backend and [X, Y, W] desired only [Z]'s marker is
    deleted and only [W] is added. *)
Example prefix_minimal_at_cursor_XYZ :
  [item_X; item_Y; item_W] = filter (λ o, lnum o = 1) [item_X; item_Y; item_W]
  ∧ @nil nat = []
  ∧ (∃ before after,
        [res_marker rec_Z] = before ++ (res_marker <$> drop 2 [rec_X; rec_Y; rec_Z]) ++ after
        ∧ markers_on [rec_X; rec_Y; rec_Z] (λ l, l < 1) before
        ∧ markers_on [rec_X; rec_Y; rec_Z] (λ l, 1 < l) after)
  ∧ filter (λ def, def_lnum def = 1) [convertHighlightItem item_W]
    = (convertHighlightItem <$> drop 2 [item_X; item_Y; item_W])
  ∧ (2 = 3 → 2 = 3 →
     markers_on [rec_X; rec_Y; rec_Z] (λ l, l ≠ 1) [res_marker rec_Z]
     ∧ filter (λ def, def_lnum def = 1) [convertHighlightItem item_W] = []).
Proof.
  refine (prefix_minimal_at_cursor ws_markers [item_X; item_Y; item_W] None None
            [rec_X; rec_Y; rec_Z]
            (mkDiff [] [convertHighlightItem item_W] [res_marker rec_Z]) 1 2 _ _ _ _ _ _).
  - reflexivity.
  - reflexivity.
  - simpl. lia.
  - discriminate.
  - discriminate.
  - replace (added_on true (sort_by_lnum [item_X; item_Y; item_W]) None
               [rec_X; rec_Y; rec_Z] 1)
      with [item_X; item_Y; item_W] by (vm_compute; reflexivity).
    replace (filter (λ r, res_lnum r = 1) [rec_X; rec_Y; rec_Z])
      with [rec_X; rec_Y; rec_Z] by (vm_compute; reflexivity).
    split_and!; [simpl; lia | simpl; lia | | ].
    + intros [|[|j]] a e Hj; simpl; try lia; by intros [= <-] [= <-].
    + simpl. by intros a e [= <-] [= <-].
Qed.

(** Take a line the scan visits on which the snapshot has records and
    the inner loop collects desired items, which then are all the desired
    items of that line.  For a backend that is not marker-capable the diff
    deletes no marker; when the two sequences agree position by position
    with equal length the diff neither clears that line nor adds an item on
    it; otherwise it clears the line, once, and the items it adds on that
    line are the encodings of all its desired items. *)
Lemma clear_and_readd_at_cursor ws items region token curr d i :
  checkMarkers ws = false →
  (diffHighlights ws items region token (Some curr)).2 = Some d →
  let exists_ := filter (λ r, res_lnum r = i) curr in
  let added := added_on false (sort_by_lnum items) region curr i in
  scan_start region ≤ i → exists_ ≠ [] → added ≠ [] →
  added = filter (λ o, lnum o = i) items
  ∧ removeMarkers d = []
  ∧ (pairwise_same added exists_ →
     (i ∉ remove d) ∧ filter (λ def, def_lnum def = i) (add d) = [])
  ∧ (¬ pairwise_same added exists_ →
     filter (λ l, l = i) (remove d) = [i]
     ∧ filter (λ def, def_lnum def = i) (add d) = (convertHighlightItem <$> added)).
Proof.
  intros Hcm Hd exists_ added Hstart Hex Had. revert Hd.
  unfold diffHighlights. destruct (cancellationRequested token); [done|].
  simpl. intros [= <-]; simpl. rewrite Hcm.
  destruct (scan_line_report false (sort_by_lnum items) region curr i)
    as (Hall & L1 & L2 & M1 & M2 & A1 & A2 & HL & HM & HA & HL1 & HL2 & HM1 & HM2 & HA1 & HA2);
    [apply sort_by_lnum_sorted|done..|].
  fold exists_ added in Hall, HL, HM, HA.
  assert (Hline : Forall (λ def, def_lnum def = i) (convertHighlightItem <$> added)).
  { apply Forall_fmap, Forall_forall. intros o Ho. simpl.
    rewrite Hall in Ho. rewrite sort_by_lnum_stable in Ho.
    apply list_elem_of_filter in Ho as [Ho _]. by rewrite def_lnum_convert. }
  assert (HA1' : filter (λ def, def_lnum def = i) A1 = []).
  { apply filter_none. eapply Forall_impl; [exact HA1|]. simpl; intros; lia. }
  assert (HA2' : filter (λ def, def_lnum def = i) A2 = []).
  { apply filter_none. eapply Forall_impl; [exact HA2|]. simpl; intros; lia. }
  assert (HL1' : filter (λ l, l = i) L1 = []).
  { apply filter_none. eapply Forall_impl; [exact HL1|]. simpl; intros; lia. }
  assert (HL2' : filter (λ l, l = i) L2 = []).
  { apply filter_none. eapply Forall_impl; [exact HL2|]. simpl; intros; lia. }
  rewrite HL, HA. rewrite !filter_app, HA1', HA2', HL1', HL2'.
  destruct (line_update_line_mode i exists_ added Hex Had) as [Hsame Hdiff].
  split_and!.
  - by rewrite Hall, sort_by_lnum_stable.
  - apply line_mode_no_markers.
  - intros Hp. rewrite (Hsame Hp). simpl. split; [|done].
    apply not_elem_of_app; split.
    + intros Hin. rewrite Forall_forall in HL1. specialize (HL1 i Hin). lia.
    + intros Hin. rewrite Forall_forall in HL2. specialize (HL2 i Hin). lia.
  - intros Hp. rewrite (Hdiff Hp). cbn [linesToRemove newItems].
    rewrite app_nil_r. split.
    + rewrite filter_cons, filter_nil. by destruct (decide (i = i)).
    + rewrite (filter_all _ _ Hline). simpl. by rewrite app_nil_r.
Qed.

(** For [X, Y] on the backend and [X, Y, W] desired the whole line is
    cleared and all three items are added again. *)
Example clear_and_readd_at_cursor_XY :
  filter (λ l, l = 1) [1] = [1]
  ∧ filter (λ def, def_lnum def = 1) (convertHighlightItem <$> [item_X; item_Y; item_W])
    = (convertHighlightItem <$> [item_X; item_Y; item_W]).
Proof.
  refine (proj2 (proj2 (proj2
    (clear_and_readd_at_cursor ws_lines [item_X; item_Y; item_W] None None
       [rec_X; rec_Y]
       (mkDiff [1] (convertHighlightItem <$> [item_X; item_Y; item_W]) []) 1 _ _ _ _ _))) _).
  - reflexivity.
  - reflexivity.
  - simpl. lia.
  - discriminate.
  - discriminate.
  - intros Hp. apply Forall2_length in Hp. discriminate.
Qed.

(** ** The cursor when no desired item precedes the scan *)

Lemma line_update_index cm i ex ad idx st :
  itemIndex (line_update cm i ex ad idx st) = idx.
Proof. by rewrite line_update_from_empty. Qed.

Lemma entering_cursor_ok cm items region curr i :
  StronglySorted lnum_le items →
  Forall (λ o, scan_start region ≤ lnum o) items →
  scan_start region ≤ i →
  cursor_ok items i (itemIndex (entering cm items region curr i)).
Proof.
  intros Hs Hall Hi. unfold entering.
  replace i with (scan_start region + (i - scan_start region)) at 1 by lia.
  apply (line_loop_ind (λ j s, cursor_ok items j (itemIndex s))).
  - unfold cursor_ok. simpl. rewrite take_0, drop_0. by split.
  - intros j s _ Hcur. rewrite line_body_eq, line_update_index.
    by apply added_at_sorted.
Qed.

(** With no desired item before the first line scanned, the inner loop
    collects for a line it visits all desired items of that line. *)
Lemma added_on_desired cm items region curr i :
  Forall (λ o, scan_start region ≤ lnum o) items →
  scan_start region ≤ i →
  added_on cm (sort_by_lnum items) region curr i = filter (λ o, lnum o = i) items.
Proof.
  intros Hall Hi. unfold added_on.
  assert (Hall' : Forall (λ o, scan_start region ≤ lnum o) (sort_by_lnum items)).
  { apply Forall_forall. intros o Ho. rewrite sort_by_lnum_perm in Ho.
    rewrite Forall_forall in Hall. by apply Hall. }
  pose proof (entering_cursor_ok cm (sort_by_lnum items) region curr i
                (sort_by_lnum_sorted items) Hall' Hi) as Hcur.
  destruct (added_at_sorted _ _ _ (sort_by_lnum_sorted items) Hcur) as [-> _].
  apply sort_by_lnum_stable.
Qed.

Lemma desired_line_scanned (items : list HighlightItem) (a i : nat) :
  Forall (λ o, a ≤ lnum o) items → filter (λ o, lnum o = i) items ≠ [] → a ≤ i.
Proof.
  intros Hall Hne.
  destruct (filter (λ o, lnum o = i) items) as [|o l] eqn:Hf; [done|].
  assert (Ho : o ∈ filter (λ o, lnum o = i) items) by (rewrite Hf; constructor).
  apply list_elem_of_filter in Ho as [<- Ho].
  rewrite Forall_forall in Hall. by apply Hall.
Qed.

(** C2 as stated fails: with the region from line 5 to line 9, a desired
    item on line 1 and one on line 7, and a snapshot whose only record is
    the line 7 item, line 7 has one record and one desired item and the
    common prefix covers both; yet the record's marker is deleted and the
    item is added again. *)
Lemma prefix_minimal_fails_before_region :
  filter (λ r, res_lnum r = 7) [rec_late] = [rec_late]
  ∧ filter (λ o, lnum o = 7) [item_X; item_late] = [item_late]
  ∧ longest_common_prefix 1 [item_late] [rec_late]
  ∧ (diffHighlights ws_markers [item_X; item_late] (Some (5, 9)) None
       (Some [rec_late])).2
    = Some (mkDiff [] [convertHighlightItem item_X; convertHighlightItem item_late]
                   [res_marker rec_late]).
Proof.
  split_and!; try reflexivity.
  unfold longest_common_prefix. split_and!; [simpl; lia|simpl; lia| |].
  - intros [|j] a e Hj; [|lia]. simpl. by intros [= <-] [= <-].
  - simpl. by intros a e.
Qed.

(** C2, amended: when no desired item lies on a line before the first line
    scanned, which is always so without a region, take a line on which both
    the snapshot has records and there are desired items, and let [k] be
    the length of their longest common prefix under the four-field
    comparison.  For a marker-capable backend the diff clears no line; the
    markers it deletes are, between those of records on earlier and on later
    lines, exactly the markers of the records past the prefix; the items it
    adds on that line are exactly the encodings of the desired items past
    the prefix.  When the prefix covers both sequences the diff deletes no
    marker for that line and adds no item on it. *)
Theorem marker_capable_prefix_minimal ws items region token curr d i k :
  checkMarkers ws = true →
  (diffHighlights ws items region token (Some curr)).2 = Some d →
  Forall (λ o, scan_start region ≤ lnum o) items →
  let exists_ := filter (λ r, res_lnum r = i) curr in
  let desired := filter (λ o, lnum o = i) items in
  exists_ ≠ [] → desired ≠ [] →
  longest_common_prefix k desired exists_ →
  remove d = []
  ∧ (∃ before after,
        removeMarkers d = before ++ (res_marker <$> drop k exists_) ++ after
        ∧ markers_on curr (λ l, l < i) before
        ∧ markers_on curr (λ l, i < l) after)
  ∧ filter (λ def, def_lnum def = i) (add d) = (convertHighlightItem <$> drop k desired)
  ∧ (k = length exists_ → k = length desired →
     markers_on curr (λ l, l ≠ i) (removeMarkers d)
     ∧ filter (λ def, def_lnum def = i) (add d) = []).
Proof.
  intros Hcm Hd Hall exists_ desired Hex Hde Hk.
  pose proof (desired_line_scanned items _ i Hall Hde) as Hstart.
  pose proof (prefix_minimal_at_cursor ws items region token curr d i k Hcm Hd) as H.
  cbv zeta in H. rewrite (added_on_desired true items region curr i Hall Hstart) in H.
  destruct (H Hstart Hex Hde Hk) as (_ & H2 & H3 & H4 & H5). done.
Qed.

(** For [X, Y, Z] on the backend and [X, Y, W] desired only [Z]'s marker is
    deleted and only [W] is added. *)
Lemma marker_capable_prefix_minimal_witness :
  @nil nat = []
  ∧ (∃ before after,
        [res_marker rec_Z] = before ++ (res_marker <$> drop 2 [rec_X; rec_Y; rec_Z]) ++ after
        ∧ markers_on [rec_X; rec_Y; rec_Z] (λ l, l < 1) before
        ∧ markers_on [rec_X; rec_Y; rec_Z] (λ l, 1 < l) after)
  ∧ filter (λ def, def_lnum def = 1) [convertHighlightItem item_W]
    = (convertHighlightItem <$> drop 2 [item_X; item_Y; item_W])
  ∧ (2 = 3 → 2 = 3 →
     markers_on [rec_X; rec_Y; rec_Z] (λ l, l ≠ 1) [res_marker rec_Z]
     ∧ filter (λ def, def_lnum def = 1) [convertHighlightItem item_W] = []).
Proof.
  refine (marker_capable_prefix_minimal ws_markers [item_X; item_Y; item_W] None None
            [rec_X; rec_Y; rec_Z]
            (mkDiff [] [convertHighlightItem item_W] [res_marker rec_Z]) 1 2 _ _ _ _ _ _).
  - reflexivity.
  - reflexivity.
  - repeat constructor; simpl; lia.
  - discriminate.
  - discriminate.
  - replace (filter (λ o, lnum o = 1) [item_X; item_Y; item_W])
      with [item_X; item_Y; item_W] by (vm_compute; reflexivity).
    replace (filter (λ r, res_lnum r = 1) [rec_X; rec_Y; rec_Z])
      with [rec_X; rec_Y; rec_Z] by (vm_compute; reflexivity).
    split_and!; [simpl; lia | simpl; lia | | ].
    + intros [|[|j]] a e Hj; simpl; try lia; by intros [= <-] [= <-].
    + simpl. by intros a e [= <-] [= <-].
Defined.

(** C3 as stated fails: on the same input with a backend that is not
    marker-capable, the record and the desired item of line 7 agree, one to
    one; yet line 7 is cleared and the item is added again. *)
Lemma clear_and_readd_fails_before_region :
  filter (λ r, res_lnum r = 7) [rec_late] = [rec_late]
  ∧ filter (λ o, lnum o = 7) [item_X; item_late] = [item_late]
  ∧ pairwise_same [item_late] [rec_late]
  ∧ (diffHighlights ws_lines [item_X; item_late] (Some (5, 9)) None
       (Some [rec_late])).2
    = Some (mkDiff [7] [convertHighlightItem item_X; convertHighlightItem item_late] []).
Proof. split_and!; try reflexivity. repeat constructor. Qed.

(** C3, amended: when no desired item lies on a line before the first line
    scanned, which is always so without a region, take a line on which both
    the snapshot has records and there are desired items.  For a backend
    that is not marker-capable the diff deletes no marker; when the two
    sequences agree position by position with equal length the diff neither
    clears that line nor adds an item on it; otherwise it clears the line,
    once, and the items it adds on that line are the encodings of all its
    desired items. *)
Theorem line_granular_clear_and_readd ws items region token curr d i :
  checkMarkers ws = false →
  (diffHighlights ws items region token (Some curr)).2 = Some d →
  Forall (λ o, scan_start region ≤ lnum o) items →
  let exists_ := filter (λ r, res_lnum r = i) curr in
  let desired := filter (λ o, lnum o = i) items in
  exists_ ≠ [] → desired ≠ [] →
  removeMarkers d = []
  ∧ (pairwise_same desired exists_ →
     (i ∉ remove d) ∧ filter (λ def, def_lnum def = i) (add d) = [])
  ∧ (¬ pairwise_same desired exists_ →
     filter (λ l, l = i) (remove d) = [i]
     ∧ filter (λ def, def_lnum def = i) (add d) = (convertHighlightItem <$> desired)).
Proof.
  intros Hcm Hd Hall exists_ desired Hex Hde.
  pose proof (desired_line_scanned items _ i Hall Hde) as Hstart.
  pose proof (clear_and_readd_at_cursor ws items region token curr d i Hcm Hd) as H.
  cbv zeta in H. rewrite (added_on_desired false items region curr i Hall Hstart) in H.
  destruct (H Hstart Hex Hde) as (_ & H2 & H3 & H4). done.
Qed.

(** For [X, Y] on the backend and [X, Y, W] desired the whole line is
    cleared and all three items are added again. *)
Lemma line_granular_clear_and_readd_witness :
  filter (λ l, l = 1) [1] = [1]
  ∧ filter (λ def, def_lnum def = 1) (convertHighlightItem <$> [item_X; item_Y; item_W])
    = (convertHighlightItem <$> [item_X; item_Y; item_W]).
Proof.
  refine (proj2 (proj2
    (line_granular_clear_and_readd ws_lines [item_X; item_Y; item_W] None None
       [rec_X; rec_Y]
       (mkDiff [1] (convertHighlightItem <$> [item_X; item_Y; item_W]) []) 1 _ _ _ _ _)) _).
  - reflexivity.
  - reflexivity.
  - repeat constructor; simpl; lia.
  - discriminate.
  - discriminate.
  - intros Hp. apply Forall2_length in Hp. discriminate.
Defined.

(** * Further properties of the reconciliation *)

(** ** What one round accounts for *)

Lemma skip_same_take_added added exists_ o :
  o ∈ take (skip_same added exists_) added → ∃ r, r ∈ exists_ ∧ isSame o r = true.
Proof.
  destruct (skip_same_longest added exists_) as (_ & Hk & Hsame & _).
  intros (j & Ho & Hj)%elem_of_take.
  destruct (lookup_lt_is_Some_2 exists_ j) as [r Hr]; [lia|].
  exists r. split; [by eapply list_elem_of_lookup_2|by eapply Hsame].
Qed.

Lemma skip_same_take_exists added exists_ r :
  r ∈ take (skip_same added exists_) exists_ → ∃ o, o ∈ added ∧ isSame o r = true.
Proof.
  destruct (skip_same_longest added exists_) as (Hk & _ & Hsame & _).
  intros (j & Hr & Hj)%elem_of_take.
  destruct (lookup_lt_is_Some_2 added j) as [o Ho]; [lia|].
  exists o. split; [by eapply list_elem_of_lookup_2|by eapply Hsame].
Qed.

Lemma elem_of_take_drop {A} (x : A) (k : nat) (l : list A) :
  x ∈ l → x ∈ take k l ∨ x ∈ drop k l.
Proof. rewrite <- (take_drop k l) at 1. apply elem_of_app. Qed.

(** What a round leaves in accumulators that were empty: every collected
    item is encoded for adding or has an equal record, and every record of
    the line is removed, by marker or by line, or has an equal item. *)
Lemma line_update_cover cm i ex ad :
  let u := line_update cm i ex ad 0 (mkLoop [] [] [] 0) in
  (∀ o, o ∈ ad →
        convertHighlightItem o ∈ newItems u ∨ ∃ r, r ∈ ex ∧ isSame o r = true)
  ∧ (∀ r, r ∈ ex →
          (if cm then res_marker r ∈ markersToRemove u else i ∈ linesToRemove u)
          ∨ ∃ o, o ∈ ad ∧ isSame o r = true).
Proof.
  unfold line_update.
  destruct ad as [|a ad]; [|destruct ex as [|e ex]].
  - split; [by intros o ?%elem_of_nil|].
    intros r Hr. left. destruct ex as [|e ex]; [by apply elem_of_nil in Hr|].
    destruct cm; cbn [markersToRemove linesToRemove app];
      [by apply list_elem_of_fmap_2|by apply list_elem_of_singleton].
  - split; [|by intros r ?%elem_of_nil].
    intros o Ho. left. cbn [newItems app].
    by apply (list_elem_of_fmap_2 convertHighlightItem).
  - destruct cm.
    + cbv zeta. set (k := skip_same (a :: ad) (e :: ex)).
      cbn [newItems markersToRemove app]. split.
      * intros o Ho. destruct (elem_of_take_drop _ k _ Ho) as [Ht|Hd].
        -- right. by apply skip_same_take_added in Ht.
        -- left. by apply list_elem_of_fmap_2.
      * intros r Hr. destruct (elem_of_take_drop _ k _ Hr) as [Ht|Hd].
        -- right. by apply skip_same_take_exists in Ht.
        -- left. by apply list_elem_of_fmap_2.
    + pose proof (every_same_pairwise (a :: ad) (e :: ex)) as Hiff.
      destruct (negb _ || negb _).
      * cbn [newItems linesToRemove app]. split.
        -- intros o Ho. left. by apply (list_elem_of_fmap_2 convertHighlightItem).
        -- intros r Hr. left. by apply list_elem_of_singleton.
      * assert (Hp : pairwise_same (a :: ad) (e :: ex)) by by apply Hiff.
        split.
        -- intros o (j & Ho)%list_elem_of_lookup_1. right.
           destruct (Forall2_lookup_l _ _ _ _ _ Hp Ho) as (r & Hr & Hs).
           exists r. split; [by eapply list_elem_of_lookup_2|done].
        -- intros r (j & Hr)%list_elem_of_lookup_1. right.
           destruct (Forall2_lookup_r _ _ _ _ _ Hp Hr) as (o & Ho & Hs).
           exists o. split; [by eapply list_elem_of_lookup_2|done].
Qed.

Lemma added_at_elem_of items i j o : o ∈ added_at items i j → o ∈ items.
Proof.
  intros Ho. rewrite <- (take_drop j items), (drop_added items i j).
  apply elem_of_app; right. apply elem_of_app; by left.
Qed.

Lemma cover_inv_step cm curr items a j s :
  cover_inv cm curr items a j s →
  cover_inv cm curr items a (S j) (line_body cm (group_highlights curr).2 items j s).
Proof.
  intros (C1 & C2 & C3 & C4).
  destruct (line_body_effect cm curr items j s) as (b & k & k' & Hshape & Hb).
  pose proof (line_body_eq cm (group_highlights curr).2 items j s) as Heq.
  rewrite group_highlights_lookup, line_update_from_empty in Heq.
  destruct (line_update_cover cm j (filter (λ r, res_lnum r = j) curr)
              (added_at items j (itemIndex s))) as [U1 U2].
  set (u := line_update cm j (filter (λ r, res_lnum r = j) curr)
              (added_at items j (itemIndex s)) 0 (mkLoop [] [] [] 0)) in *.
  unfold cover_inv. split_and!.
  - rewrite Heq. simpl. rewrite take_added.
    intros o [Ho|Ho]%elem_of_app.
    + destruct (C1 o Ho) as [Hl|Hr]; [left; apply elem_of_app; by left|by right].
    + destruct (U1 o Ho) as [Hl|(r & Hr & Hs)]; [left; apply elem_of_app; by right|].
      right. exists r. split; [|done]. apply list_elem_of_filter in Hr. tauto.
  - rewrite Heq. simpl. intros r Hr Hrange.
    destruct (decide (res_lnum r = j)) as [Hj|Hj].
    + destruct (U2 r) as [Hl|(o & Ho & Hs)].
      * by apply list_elem_of_filter.
      * left. destruct cm; apply elem_of_app; right; [done|by rewrite Hj].
      * right. exists o. split; [by eapply added_at_elem_of|done].
    + destruct (C2 r Hr) as [Hl|Hx]; [lia| |by right].
      left. destruct cm; apply elem_of_app; by left.
  - rewrite Hshape. simpl. apply Forall_app; split; [done|].
    destruct b; [|constructor]. constructor; [|constructor].
    destruct (filter (λ r, res_lnum r = j) curr) as [|r l] eqn:Hf; [by destruct Hb|].
    assert (Hr : r ∈ filter (λ r, res_lnum r = j) curr) by (rewrite Hf; constructor).
    apply list_elem_of_filter in Hr as [Hj Hr]. by exists r.
  - rewrite Hshape. simpl. rewrite take_added, fmap_app.
    apply sublist_app; [done|]. apply fmap_sublist, sublist_drop.
Qed.

Lemma cover_scan cm items region curr :
  ∃ j, cover_inv cm curr items (scan_start region) j (scan_lines cm items region curr)
       ∧ (curr ≠ [] → (group_highlights curr).1 < j).
Proof.
  rewrite scan_lines_eq.
  assert (H0 : cover_inv cm curr items (scan_start region) (scan_start region)
                 (mkLoop [] [] [] 0)).
  { unfold cover_inv; simpl. rewrite take_0. split_and!.
    - by intros o ?%elem_of_nil.
    - intros; lia.
    - constructor.
    - done. }
  destruct curr as [|r curr'].
  - exists (scan_start region). by split.
  - eexists. split.
    + apply (line_loop_ind (cover_inv cm (r :: curr') items (scan_start region)));
        [exact H0|].
      intros j s _. apply cover_inv_step.
    + intros _. lia.
Qed.

Lemma StronglySorted_sublist {A} (R : relation A) (l1 l2 : list A) :
  l1 `sublist_of` l2 → StronglySorted R l2 → StronglySorted R l1.
Proof.
  induction 1 as [|x l1 l2 Hsub IH|x l1 l2 Hsub IH]; intros Hs.
  - constructor.
  - apply StronglySorted_inv in Hs as [Hs Hx]. constructor; [by apply IH|].
    apply Forall_forall. intros y Hy. rewrite Forall_forall in Hx.
    apply Hx. by eapply elem_of_sublist.
  - apply StronglySorted_inv in Hs as [Hs _]. by apply IH.
Qed.

(** ** The diff as a whole *)

(** X1: the entries of [add] are encodings of desired items, each item at
    most once and in the order of the line-sorted array, so [add] is in
    ascending line order and no longer than the desired sequence. *)
Theorem add_sublist_of_sorted ws items region token curr d :
  (diffHighlights ws items region token (Some curr)).2 = Some d →
  add d `sublist_of` (convertHighlightItem <$> sort_by_lnum items)
  ∧ StronglySorted (λ x y, def_lnum x ≤ def_lnum y) (add d)
  ∧ length (add d) ≤ length items.
Proof.
  unfold diffHighlights. destruct (cancellationRequested token); [done|].
  simpl. intros [= <-]; simpl.
  destruct (cover_scan (checkMarkers ws) (sort_by_lnum items) region curr)
    as (j & (_ & _ & _ & Hsub) & _).
  set (st := scan_lines (checkMarkers ws) (sort_by_lnum items) region curr) in *.
  assert (Hall : newItems st ++ (convertHighlightItem <$> drop (itemIndex st) (sort_by_lnum items))
                 `sublist_of` (convertHighlightItem <$> sort_by_lnum items)).
  { replace (convertHighlightItem <$> sort_by_lnum items)
      with ((convertHighlightItem <$> take (itemIndex st) (sort_by_lnum items))
            ++ (convertHighlightItem <$> drop (itemIndex st) (sort_by_lnum items)))
      by (by rewrite <- fmap_app, take_drop).
    by apply sublist_app. }
  split_and!; [done| |].
  - eapply StronglySorted_sublist; [exact Hall|].
    eapply StronglySorted_fmap; [|apply sort_by_lnum_sorted].
    intros x y Hxy. by rewrite !def_lnum_convert.
  - apply sublist_length in Hall.
    rewrite length_fmap, (Permutation_length (sort_by_lnum_perm items)) in Hall. done.
Qed.

Lemma add_sublist_of_sorted_witness :
  [convertHighlightItem item_X; convertHighlightItem item_late]
    `sublist_of` (convertHighlightItem <$> sort_by_lnum [item_late; item_X])
  ∧ StronglySorted (λ x y, def_lnum x ≤ def_lnum y)
      [convertHighlightItem item_X; convertHighlightItem item_late]
  ∧ 2 ≤ 2.
Proof.
  apply (add_sublist_of_sorted ws_markers [item_late; item_X] None None [rec_Z]
           (mkDiff [] [convertHighlightItem item_X; convertHighlightItem item_late] [12])).
  reflexivity.
Defined.

(** X2: no desired item is lost: each one is encoded in [add] or there is
    a snapshot record equal to it under the four-field comparison. *)
Theorem desired_item_added_or_present ws items region token curr d o :
  (diffHighlights ws items region token (Some curr)).2 = Some d →
  o ∈ items →
  convertHighlightItem o ∈ add d ∨ ∃ r, r ∈ curr ∧ isSame o r = true.
Proof.
  unfold diffHighlights. destruct (cancellationRequested token); [done|].
  simpl. intros [= <-] Ho; simpl.
  destruct (cover_scan (checkMarkers ws) (sort_by_lnum items) region curr)
    as (j & (Hcov & _) & _).
  set (st := scan_lines (checkMarkers ws) (sort_by_lnum items) region curr) in *.
  assert (Hs : o ∈ sort_by_lnum items) by by rewrite sort_by_lnum_perm.
  destruct (elem_of_take_drop _ (itemIndex st) _ Hs) as [Ht|Hd].
  - destruct (Hcov o Ht) as [Hl|Hr]; [left; apply elem_of_app; by left|by right].
  - left. apply elem_of_app; right. by apply list_elem_of_fmap_2.
Qed.

Lemma desired_item_added_or_present_witness :
  convertHighlightItem item_W ∈ [convertHighlightItem item_W]
  ∨ ∃ r, r ∈ [rec_X; rec_Y; rec_Z] ∧ isSame item_W r = true.
Proof.
  apply (desired_item_added_or_present ws_markers [item_X; item_Y; item_W] None None
           [rec_X; rec_Y; rec_Z]
           (mkDiff [] [convertHighlightItem item_W] [res_marker rec_Z])).
  - reflexivity.
  - apply list_elem_of_In. simpl. tauto.
Defined.

(** X3: no stale record is left on a line from the start of the scan on:
    each snapshot record there has its marker deleted, on a marker-capable
    backend, or its line cleared, on the other, or there is a desired item
    equal to it under the four-field comparison. *)
Theorem stale_record_removed_or_desired ws items region token curr d r :
  (diffHighlights ws items region token (Some curr)).2 = Some d →
  r ∈ curr → scan_start region ≤ res_lnum r →
  (if checkMarkers ws then res_marker r ∈ removeMarkers d else res_lnum r ∈ remove d)
  ∨ ∃ o, o ∈ items ∧ isSame o r = true.
Proof.
  unfold diffHighlights. destruct (cancellationRequested token); [done|].
  simpl. intros [= <-] Hr Hstart; simpl.
  destruct (cover_scan (checkMarkers ws) (sort_by_lnum items) region curr)
    as (j & (_ & Hcov & _) & Hj).
  assert (Hne : curr ≠ []) by (intros ->; by apply elem_of_nil in Hr).
  pose proof (group_highlights_max_ge curr r Hr) as Hmax. specialize (Hj Hne).
  destruct (Hcov r Hr) as [Hl|(o & Ho & Hs)]; [lia|by left|].
  right. exists o. split; [|done]. by rewrite sort_by_lnum_perm in Ho.
Qed.

Lemma stale_record_removed_or_desired_witness :
  res_marker rec_Z ∈ [res_marker rec_Z]
  ∨ ∃ o, o ∈ [item_X; item_Y; item_W] ∧ isSame o rec_Z = true.
Proof.
  apply (stale_record_removed_or_desired ws_markers [item_X; item_Y; item_W] None None
           [rec_X; rec_Y; rec_Z]
           (mkDiff [] [convertHighlightItem item_W] [res_marker rec_Z]) rec_Z).
  - reflexivity.
  - apply list_elem_of_In. simpl. tauto.
  - simpl. lia.
Defined.

(** X4: the diff touches only what the snapshot shows from the start of
    the scan on: every line to clear holds a snapshot record and is not
    before the first line scanned, and every marker to delete is the marker
    of a snapshot record on such a line.  Lines before the start of a region
    are left alone whatever they hold. *)
Theorem removals_within_snapshot ws items region token curr d :
  (diffHighlights ws items region token (Some curr)).2 = Some d →
  Forall (λ l, scan_start region ≤ l ∧ ∃ r, r ∈ curr ∧ res_lnum r = l) (remove d)
  ∧ markers_on curr (λ l, scan_start region ≤ l) (removeMarkers d).
Proof.
  unfold diffHighlights. destruct (cancellationRequested token); [done|].
  simpl. intros [= <-]; simpl.
  destruct (cover_scan (checkMarkers ws) (sort_by_lnum items) region curr)
    as (j & (_ & _ & Hrec & _) & _).
  destruct (scan_lines_inv (checkMarkers ws) (sort_by_lnum items) region curr)
    as (j' & (I1 & _ & I3 & _) & _).
  split.
  - rewrite Forall_forall in I1. rewrite Forall_forall in Hrec.
    apply Forall_forall. intros l Hl. split; [|by apply Hrec].
    specialize (I1 l Hl). lia.
  - eapply Forall_impl; [exact I3|]. simpl.
    intros m (r & ? & ? & ?). exists r. split_and!; [done|done|lia].
Qed.

Lemma removals_within_snapshot_witness :
  Forall (λ l, 2 ≤ l ∧ ∃ r, r ∈ [rec_X; mkResult "Info" 3 0 1 14] ∧ res_lnum r = l) [3]
  ∧ markers_on [rec_X; mkResult "Info" 3 0 1 14] (λ l, 2 ≤ l) [].
Proof.
  apply (removals_within_snapshot ws_lines [] (Some (2, 9)) None
           [rec_X; mkResult "Info" 3 0 1 14] (mkDiff [3] [] [])).
  reflexivity.
Defined.

Lemma batch_commands_elem bufnr ns priority d c :
  c ∈ batch_commands bufnr ns priority d →
  (c = CallNotify "coc#highlight#del_markers"
         [ANum (Z.of_nat bufnr); AStr ns; ANums (removeMarkers d)]
   ∧ removeMarkers d ≠ [])
  ∨ (c = CallNotify "coc#highlight#clear"
           [ANum (Z.of_nat bufnr); AStr ns; ANums (remove d)]
     ∧ remove d ≠ [])
  ∨ (c = CallNotify "coc#highlight#set"
           [ANum (Z.of_nat bufnr); AStr ns; ADefs (add d); ANum (Z.of_nat priority)]
     ∧ add d ≠ []).
Proof.
  unfold batch_commands.
  intros [Hc|[Hc|Hc]%elem_of_app]%elem_of_app.
  - destruct (removeMarkers d); [by apply elem_of_nil in Hc|].
    apply list_elem_of_singleton in Hc. by left.
  - destruct (remove d); [by apply elem_of_nil in Hc|].
    apply list_elem_of_singleton in Hc. right; by left.
  - destruct (add d); [by apply elem_of_nil in Hc|].
    apply list_elem_of_singleton in Hc. right; by right.
Qed.

(** X5: a diff uses one way of removing only: on a marker-capable backend
    it clears no line, on the other it deletes no marker; so applying it
    to a fresh client never queues both a delete-markers and a clear-lines
    request. *)
Theorem one_removal_mechanism ws items region token curr d :
  (diffHighlights ws items region token (Some curr)).2 = Some d →
  (if checkMarkers ws then remove d = [] else removeMarkers d = [])
  ∧ ∀ bufnr ns priority notify args1 args2,
      ¬ (CallNotify "coc#highlight#del_markers" args1
           ∈ applyDiffHighlights bufnr ns priority d notify []
         ∧ CallNotify "coc#highlight#clear" args2
           ∈ applyDiffHighlights bufnr ns priority d notify []).
Proof.
  intros Hd.
  assert (Hmode : if checkMarkers ws then remove d = [] else removeMarkers d = []).
  { revert Hd. unfold diffHighlights. destruct (cancellationRequested token); [done|].
    simpl. intros [= <-]; simpl.
    destruct (checkMarkers ws); [apply marker_mode_no_clear|apply line_mode_no_markers]. }
  split; [done|].
  intros bufnr ns priority notify args1 args2. rewrite applyDiffHighlights_trace.
  destruct (all_empty d); [by intros [?%elem_of_nil _]|].
  assert (Hin : ∀ m args,
             CallNotify m args ∈ [] ++ [PauseNotification]
               ++ batch_commands bufnr ns priority d ++ [ResumeNotification true notify] →
             CallNotify m args ∈ batch_commands bufnr ns priority d).
  { intros m args [H|[H|[H|H]%elem_of_app]%elem_of_app]%elem_of_app; try done.
    - by apply elem_of_nil in H.
    - by apply list_elem_of_singleton in H.
    - by apply list_elem_of_singleton in H. }
  intros [H1%Hin H2%Hin].
  apply batch_commands_elem in H1 as [[_ H1]|[[[=] _]|[[=] _]]].
  apply batch_commands_elem in H2 as [[[=] _]|[[_ H2]|[[=] _]]].
  destruct (checkMarkers ws); congruence.
Qed.

Lemma one_removal_mechanism_witness :
  (if checkMarkers ws_lines then [3] = [] else @nil nat = [])
  ∧ ∀ bufnr ns priority notify args1 args2,
      ¬ (CallNotify "coc#highlight#del_markers" args1
           ∈ applyDiffHighlights bufnr ns priority (mkDiff [3] [] []) notify []
         ∧ CallNotify "coc#highlight#clear" args2
           ∈ applyDiffHighlights bufnr ns priority (mkDiff [3] [] []) notify []).
Proof.
  apply (one_removal_mechanism ws_lines [] (Some (2, 9)) None
           [rec_X; mkResult "Info" 3 0 1 14] (mkDiff [3] [] [])).
  reflexivity.
Defined.

Lemma diff_of_consistent ws desired region token curr :
  snapshot_within region curr → consistent desired curr →
  cancellationRequested token = false →
  diffHighlights ws desired region token (Some curr)
  = (sort_by_lnum desired, Some (mkDiff [] [] [])).
Proof.
  intros Hreg Hc Htok. unfold diffHighlights. rewrite Htok. simpl.
  set (sorted := sort_by_lnum desired).
  assert (Hocc : ∀ o, o ∈ sorted → ∃ r, r ∈ curr ∧ res_lnum r = lnum o).
  { intros o Ho. apply (consistent_line_occupied desired); [done|].
    unfold sorted in Ho. by rewrite sort_by_lnum_perm in Ho. }
  assert (Hstart : Forall (λ o, scan_start region ≤ lnum o) sorted).
  { apply Forall_forall. intros o Ho. destruct (Hocc o Ho) as (r & Hr & Hl).
    destruct region as [[a b]|]; simpl in *; [|lia].
    rewrite Forall_forall in Hreg. specialize (Hreg r Hr). lia. }
  destruct (idle_scan (checkMarkers ws) sorted region curr) as
    (j & (-> & -> & -> & _ & Hrest) & Hj);
    [apply sort_by_lnum_sorted|by apply consistent_sorted|done|].
  set (st := scan_lines (checkMarkers ws) sorted region curr) in *.
  destruct (drop (itemIndex st) sorted) as [|o rest] eqn:Hdrop; [done|].
  exfalso.
  assert (Ho : o ∈ sorted).
  { rewrite <- (take_drop (itemIndex st) sorted), Hdrop.
    apply elem_of_app; right. constructor. }
  destruct (Hocc o Ho) as (r & Hr & Hl).
  apply Forall_cons in Hrest as [Hjo _].
  pose proof (group_highlights_max_ge curr r Hr).
  assert (curr ≠ []) by (intros ->; by apply elem_of_nil in Hr).
  specialize (Hj ltac:(done)). lia.
Qed.

(** X6: reconciling against a snapshot that already matches the desired
    items and applying the outcome sends nothing: the diff is returned and
    [applyDiffHighlights] leaves the client as it was. *)
Theorem up_to_date_sends_nothing ws desired region token curr bufnr ns priority notify nvim :
  snapshot_within region curr → consistent desired curr →
  cancellationRequested token = false →
  ∃ d, (diffHighlights ws desired region token (Some curr)).2 = Some d
       ∧ applyDiffHighlights bufnr ns priority d notify nvim = nvim.
Proof.
  intros Hreg Hc Htok. rewrite (diff_of_consistent _ _ _ _ _ Hreg Hc Htok).
  by eexists.
Qed.

Lemma up_to_date_sends_nothing_witness :
  ∃ d, (diffHighlights ws_lines [item_X; item_Y; item_W] (Some (1, 2)) None
          (Some [rec_X; rec_Y; rec_W])).2 = Some d
       ∧ applyDiffHighlights 1 "ns" 10 d false [] = [].
Proof.
  apply up_to_date_sends_nothing.
  - repeat constructor; simpl; lia.
  - intros l. destruct (decide (l = 1)) as [->|Hl].
    + repeat constructor.
    + rewrite !filter_cons, !filter_nil; simpl.
      repeat case_decide; try lia. constructor.
  - reflexivity.
Defined.

(** * Tab bookkeeping *)

Lemma tabs_ok_open st : tabs_ok st → NoDup (tabIds st).
Proof. intros (_ & Hnd & _). by apply NoDup_app in Hnd as [? _]. Qed.

Lemma on_TabNew_tabIds nr st :
  tabIds (on_TabNew nr st) ≡ₚ tab_global_id st :: tabIds st.
Proof.
  unfold on_TabNew. simpl.
  by rewrite <- Permutation_middle, take_drop.
Qed.

Lemma on_TabNew_ok nr st : tabs_ok st → tabs_ok (on_TabNew nr st).
Proof.
  intros (Hg & Hnd & Hall).
  assert (Hp : tabIds (on_TabNew nr st) ++ closedTabs (on_TabNew nr st)
               ≡ₚ tab_global_id st :: (tabIds st ++ closedTabs st)).
  { by rewrite on_TabNew_tabIds. }
  unfold tabs_ok. rewrite Hp. split_and!.
  - simpl. lia.
  - apply NoDup_cons. split; [|done].
    intros Hin. rewrite Forall_forall in Hall. specialize (Hall _ Hin). lia.
  - constructor; [simpl; lia|].
    eapply Forall_impl; [exact Hall|]. simpl; intros; lia.
Qed.

Lemma splice_out_sublist {A} (a : nat) (l : list A) :
  take a l ++ drop (S a) l `sublist_of` l.
Proof.
  trans (take a l ++ drop a l); [|by rewrite take_drop].
  apply sublist_app; [done|].
  replace (S a) with (a + 1) by lia. rewrite <- drop_drop. apply sublist_drop.
Qed.

Lemma getTabId_Some nr st id :
  getTabId nr st = Some id →
  ∃ k, nr = S k ∧ tabIds st !! k = Some id
       ∧ splice_start nr (length (tabIds st)) = k.
Proof.
  destruct nr as [|k]; [done|]. simpl. intros Hk. exists k.
  split_and!; [done|done|]. apply lookup_lt_Some in Hk. lia.
Qed.

Lemma on_TabClosed_ok nr st : tabs_ok st → tabs_ok (on_TabClosed nr st).
Proof.
  intros (Hg & Hnd & Hall). unfold on_TabClosed.
  destruct (getTabId nr st) as [[|n]|] eqn:Hid.
  2:{ destruct (getTabId_Some _ _ _ Hid) as (k & -> & Hk & ->).
      assert (Hp : (take k (tabIds st) ++ drop (S k) (tabIds st))
                     ++ closedTabs st ++ [S n]
                   ≡ₚ tabIds st ++ closedTabs st).
      { pose proof (take_drop_middle _ _ _ Hk) as Hmid.
        trans ((take k (tabIds st) ++ S n :: drop (S k) (tabIds st)) ++ closedTabs st);
          [|by rewrite Hmid].
        rewrite <- (Permutation_middle (take k (tabIds st))). simpl.
        by rewrite app_assoc, <- Permutation_cons_append. }
      unfold tabs_ok. simpl. by rewrite Hp. }
  all: unfold tabs_ok; simpl; split_and!; [done| |].
  all: try (eapply sublist_NoDup; [exact Hnd|];
            apply sublist_app; [apply splice_out_sublist|done]).
  all: apply Forall_forall; intros id Hin; rewrite Forall_forall in Hall;
    apply Hall; eapply elem_of_sublist; [exact Hin|];
    apply sublist_app; [apply splice_out_sublist|done].
Qed.

Lemma init_spec n st :
  tab_global_id (init n st) = tab_global_id st + n
  ∧ tabIds (init n st) = tabIds st ++ seq (tab_global_id st) n
  ∧ closedTabs (init n st) = closedTabs st.
Proof.
  revert st; induction n as [|n IH]; intros st; simpl.
  - by rewrite Nat.add_0_r, app_nil_r.
  - destruct (IH (mkTabs (S (tab_global_id st)) (tabIds st ++ [tab_global_id st])
                         (closedTabs st))) as (-> & -> & ->).
    simpl. rewrite <- app_assoc. split_and!; [lia|done|done].
Qed.

Lemma init_ok n st : tabs_ok st → tabs_ok (init n st).
Proof.
  revert st; induction n as [|n IH]; intros st Hok; simpl; [done|].
  apply IH. destruct Hok as (Hg & Hnd & Hall). unfold tabs_ok; simpl.
  assert (Hp : (tabIds st ++ [tab_global_id st]) ++ closedTabs st
               ≡ₚ tab_global_id st :: (tabIds st ++ closedTabs st)).
  { rewrite <- app_assoc. simpl. by rewrite <- Permutation_middle. }
  rewrite Hp. split_and!; [lia| |].
  - apply NoDup_cons. split; [|done].
    intros Hin. rewrite Forall_forall in Hall. specialize (Hall _ Hin). lia.
  - constructor; [lia|]. eapply Forall_impl; [exact Hall|]. simpl; intros; lia.
Qed.

(** X7: tab ids stay unique for the life of the window: after [init] and
    any run of tab events the ids of the open tabs and the ids fired for
    closed tabs are pairwise distinct and below the counter, so an id is
    fired at most once and the id of a closed tab is never given to a new
    one. *)
Theorem tab_ids_unique tabCount events st :
  tabs_ok st →
  tabs_ok (foldl on_tab_event (init tabCount st) events).
Proof.
  intros Hok. apply (init_ok tabCount) in Hok.
  revert Hok. generalize (init tabCount st). clear st.
  induction events as [|ev events IH]; intros st Hok; simpl; [done|].
  apply IH. destruct ev; [by apply on_TabNew_ok|by apply on_TabClosed_ok].
Qed.

Lemma tab_ids_unique_witness :
  tabs_ok (foldl on_tab_event (init 2 (mkTabs 3000 [] []))
             [TabNew 1; TabClosed 2; TabNew 3]).
Proof.
  apply tab_ids_unique. unfold tabs_ok; simpl.
  split_and!; [lia|constructor|constructor].
Defined.

Lemma indexOf_Some id l i : indexOf id l = Some i → l !! i = Some id.
Proof.
  revert i; induction l as [|x l IH]; intros i; simpl; [done|].
  destruct (decide (x = id)) as [->|Hne]; [by intros [= <-]|].
  destruct (indexOf id l) as [j|]; [|done]. simpl. intros [= <-]. by apply IH.
Qed.

Lemma indexOf_NoDup id l i : NoDup l → l !! i = Some id → indexOf id l = Some i.
Proof.
  revert i; induction l as [|x l IH]; intros i Hnd; [done|].
  apply NoDup_cons in Hnd as [Hx Hnd]. destruct i as [|i]; simpl.
  - intros [= ->]. by destruct (decide (id = id)).
  - intros Hi. destruct (decide (x = id)) as [->|Hne].
    + destruct Hx. by eapply list_elem_of_lookup_2.
    + by rewrite (IH i Hnd Hi).
Qed.

(** X8: tab numbers and tab ids convert back and forth: the tab with
    number [nr] has id [id] exactly when [id] has number [nr], and an id
    that is not open has no number. *)
Theorem tab_number_id_round_trip st nr id :
  tabs_ok st →
  (getTabId nr st = Some id ↔ getTabNumber id st = Some nr)
  ∧ (id ∉ tabIds st → getTabNumber id st = None).
Proof.
  intros Hok. pose proof (tabs_ok_open st Hok) as Hnd.
  unfold getTabNumber. split; [split|].
  - intros Hid. destruct (getTabId_Some _ _ _ Hid) as (k & -> & Hk & _).
    rewrite bool_decide_eq_true_2 by by eapply list_elem_of_lookup_2.
    rewrite (indexOf_NoDup _ _ _ Hnd Hk). simpl. f_equal. lia.
  - destruct (bool_decide (id ∈ tabIds st)); [|done].
    destruct (indexOf id (tabIds st)) as [i|] eqn:Hi; [|done].
    simpl. intros [= <-]. replace (i + 1) with (S i) by lia. simpl.
    by apply indexOf_Some.
  - intros Hnot. by rewrite bool_decide_eq_false_2.
Qed.

Lemma tab_number_id_round_trip_witness :
  (getTabId 2 (init 3 (mkTabs 3000 [] [])) = Some 3001
   ↔ getTabNumber 3001 (init 3 (mkTabs 3000 [] [])) = Some 2)
  ∧ (3001 ∉ tabIds (init 3 (mkTabs 3000 [] []))
     → getTabNumber 3001 (init 3 (mkTabs 3000 [] [])) = None).
Proof.
  apply tab_number_id_round_trip. apply init_ok. unfold tabs_ok; simpl.
  split_and!; [lia|constructor|constructor].
Defined.

(** X9: closing an open tab fires its id, once, takes the id out of the
    open tabs, leaves the tabs before it where they are and moves the tabs
    after it down by one. *)
Theorem tab_closed_effect st nr id :
  tabs_ok st → getTabId nr st = Some id →
  closedTabs (on_TabClosed nr st) = closedTabs st ++ [id]
  ∧ getTabNumber id (on_TabClosed nr st) = None
  ∧ length (tabIds (on_TabClosed nr st)) + 1 = length (tabIds st)
  ∧ (∀ nr', nr' < nr → getTabId nr' (on_TabClosed nr st) = getTabId nr' st)
  ∧ (∀ nr', nr ≤ nr' → getTabId nr' (on_TabClosed nr st) = getTabId (S nr') st).
Proof.
  intros Hok Hid. pose proof (tabs_ok_open st Hok) as Hnd.
  destruct Hok as (_ & _ & Hall).
  destruct (getTabId_Some _ _ _ Hid) as (k & -> & Hk & Ha).
  assert (Hpos : ∃ n, id = S n).
  { rewrite Forall_forall in Hall.
    assert (Hin : id ∈ tabIds st ++ closedTabs st)
      by (apply elem_of_app; left; by eapply list_elem_of_lookup_2).
    specialize (Hall _ Hin). destruct id; [lia|by eexists]. }
  destruct Hpos as [n ->].
  unfold on_TabClosed. rewrite Hid, Ha. simpl.
  pose proof (lookup_lt_Some _ _ _ Hk) as Hlen.
  assert (Htake : length (take k (tabIds st)) = k) by (rewrite length_take; lia).
  split_and!.
  - done.
  - unfold getTabNumber. simpl. rewrite bool_decide_eq_false_2; [done|].
    rewrite <- (take_drop_middle _ _ _ Hk) in Hnd.
    apply NoDup_app in Hnd as (_ & Hdisj & [Hx _]%NoDup_cons).
    intros [Hin|Hin]%elem_of_app; [|done].
    apply (Hdisj _ Hin). constructor.
  - rewrite length_app, Htake, length_drop. lia.
  - intros [|k'] Hlt; [done|]. simpl.
    rewrite lookup_app_l by (rewrite Htake; lia).
    apply lookup_take_lt. lia.
  - intros [|k'] Hle; [lia|]. simpl.
    rewrite lookup_app_r by (rewrite Htake; lia).
    rewrite Htake, lookup_drop. f_equal. lia.
Qed.

Lemma tab_closed_effect_witness :
  closedTabs (on_TabClosed 2 (init 3 (mkTabs 3000 [] []))) = [] ++ [3001]
  ∧ getTabNumber 3001 (on_TabClosed 2 (init 3 (mkTabs 3000 [] []))) = None
  ∧ length (tabIds (on_TabClosed 2 (init 3 (mkTabs 3000 [] [])))) + 1 = 3
  ∧ (∀ nr', nr' < 2 → getTabId nr' (on_TabClosed 2 (init 3 (mkTabs 3000 [] [])))
                      = getTabId nr' (init 3 (mkTabs 3000 [] [])))
  ∧ (∀ nr', 2 ≤ nr' → getTabId nr' (on_TabClosed 2 (init 3 (mkTabs 3000 [] [])))
                      = getTabId (S nr') (init 3 (mkTabs 3000 [] []))).
Proof.
  apply (tab_closed_effect (init 3 (mkTabs 3000 [] [])) 2 3001).
  - apply init_ok. unfold tabs_ok; simpl. split_and!; [lia|constructor|constructor].
  - reflexivity.
Defined.

(** X10: a [TabClosed] event for a tab number past the last tab changes
    nothing and fires nothing. *)
Theorem tab_closed_past_end st nr :
  length (tabIds st) < nr → on_TabClosed nr st = st.
Proof.
  intros Hlen. destruct nr as [|k]; [lia|].
  unfold on_TabClosed. simpl.
  rewrite (lookup_ge_None_2 (tabIds st) k) by lia.
  rewrite Nat.min_r by lia.
  rewrite take_ge, drop_ge, app_nil_r by lia. by destruct st.
Qed.

Lemma tab_closed_past_end_witness :
  on_TabClosed 5 (init 3 (mkTabs 3000 [] [])) = init 3 (mkTabs 3000 [] []).
Proof. apply tab_closed_past_end. simpl. lia. Defined.

(** X11: a [TabNew] event for a tab number from 1 to one past the last tab
    gives that number a fresh id, the value of the counter, which then
    moves on; the tabs before it stay where they are, the tabs from it on
    move up by one, and nothing is fired. *)
Theorem tab_new_effect st nr :
  tabs_ok st → 1 ≤ nr ≤ length (tabIds st) + 1 →
  getTabId nr (on_TabNew nr st) = Some (tab_global_id st)
  ∧ (tab_global_id st ∉ tabIds st ++ closedTabs st)
  ∧ tab_global_id (on_TabNew nr st) = S (tab_global_id st)
  ∧ closedTabs (on_TabNew nr st) = closedTabs st
  ∧ (∀ nr', nr' < nr → getTabId nr' (on_TabNew nr st) = getTabId nr' st)
  ∧ (∀ nr', nr ≤ nr' → getTabId (S nr') (on_TabNew nr st) = getTabId nr' st).
Proof.
  intros (_ & _ & Hall) Hnr. destruct nr as [|k]; [lia|].
  unfold on_TabNew. simpl. rewrite Nat.min_l by lia.
  assert (Htake : length (take k (tabIds st)) = k) by (rewrite length_take; lia).
  split_and!; try done.
  - by apply list_lookup_middle.
  - intros Hin. rewrite Forall_forall in Hall. specialize (Hall _ Hin). lia.
  - intros [|k'] Hlt; [done|]. simpl.
    rewrite lookup_app_l by (rewrite Htake; lia).
    apply lookup_take_lt. lia.
  - intros [|k'] Hle; [lia|]. simpl.
    rewrite lookup_app_r by (rewrite Htake; lia).
    rewrite Htake. replace (S k' - k) with (S (k' - k)) by lia. simpl.
    rewrite lookup_drop. f_equal. lia.
Qed.

Lemma tab_new_effect_witness :
  getTabId 2 (on_TabNew 2 (init 3 (mkTabs 3000 [] []))) = Some 3003.
Proof.
  apply (tab_new_effect (init 3 (mkTabs 3000 [] [])) 2).
  - apply init_ok. unfold tabs_ok; simpl. split_and!; [lia|constructor|constructor].
  - simpl. lia.
Defined.

(** X12: [init] numbers the tabs in order with consecutive ids taken from
    the counter: after it tab [nr] of [tabCount] has the id the counter had
    plus [nr - 1]. *)
Theorem init_consecutive_ids tabCount g nr :
  1 ≤ nr ≤ tabCount →
  getTabId nr (init tabCount (mkTabs g [] [])) = Some (g + (nr - 1))
  ∧ length (tabIds (init tabCount (mkTabs g [] []))) = tabCount
  ∧ tab_global_id (init tabCount (mkTabs g [] [])) = g + tabCount.
Proof.
  intros Hnr. destruct (init_spec tabCount (mkTabs g [] [])) as (Hg & Hids & _).
  simpl in *. destruct nr as [|k]; [lia|]. simpl.
  rewrite Hids, Hg, length_seq. split_and!; [|done|done].
  rewrite lookup_seq_lt by lia. f_equal. lia.
Qed.

Lemma init_consecutive_ids_witness :
  getTabId 3 (init 4 (mkTabs 3000 [] [])) = Some (3000 + (3 - 1)).
Proof. apply init_consecutive_ids. lia. Defined.

(** * Messages *)

Lemma level_value_le_Error l : level_value l ≤ level_value Error.
Proof. destruct l; simpl; lia. Qed.

(** X13: an error is never suppressed: whatever the configured level, a
    message whose type is neither more nor warning is shown, with the
    Error highlight. *)
Theorem error_message_always_shown level msg messageType :
  messageType ≠ "more"%string → messageType ≠ "warning"%string →
  showMessage level msg messageType = Some (msg, "Error"%string).
Proof.
  intros Hm Hw. unfold showMessage.
  apply String.eqb_neq in Hm. apply String.eqb_neq in Hw. rewrite Hm, Hw.
  pose proof (level_value_le_Error (messageLevel level)) as Hle.
  apply Nat.leb_le in Hle. by rewrite Hle.
Qed.

Lemma error_message_always_shown_witness :
  showMessage "error" "disk full" "error" = Some ("disk full"%string, "Error"%string).
Proof. apply error_message_always_shown; discriminate. Defined.

(** X14: the configured level is a threshold with more as the default: a
    configured string other than error and warning lets every message
    through; warning holds back exactly the messages of type more; error
    holds back those of type more and of type warning. *)
Theorem message_level_threshold level msg messageType :
  (level ≠ "error"%string → level ≠ "warning"%string →
   is_Some (showMessage level msg messageType))
  ∧ (showMessage "warning" msg messageType = None ↔ messageType = "more"%string)
  ∧ (showMessage "error" msg messageType = None
     ↔ messageType = "more"%string ∨ messageType = "warning"%string).
Proof.
  unfold showMessage, messageLevel. split_and!.
  - intros He Hw. apply String.eqb_neq in He. apply String.eqb_neq in Hw.
    rewrite He, Hw. simpl.
    destruct (String.eqb messageType "more"); [by eexists|].
    destruct (String.eqb messageType "warning"); by eexists.
  - simpl. destruct (String.eqb_spec messageType "more") as [->|Hm]; [done|].
    destruct (String.eqb_spec messageType "warning") as [->|Hw]; simpl;
      split; try done.
  - simpl. destruct (String.eqb_spec messageType "more") as [->|Hm]; simpl.
    + split; [by left|done].
    + destruct (String.eqb_spec messageType "warning") as [->|Hw]; simpl.
      * split; [by right|done].
      * split; [done|by intros [|]].
Qed.

Lemma message_level_threshold_witness :
  is_Some (showMessage "more" "saved" "more").
Proof.
  apply (proj1 (message_level_threshold "more" "saved" "more")); discriminate.
Defined.

(** * Echoed lines *)

Lemma replace_newlines_clean line : newline ∉ replace_newlines line.
Proof.
  unfold replace_newlines. intros (c & Hc & _)%list_elem_of_fmap.
  destruct (Ascii.eqb_spec c newline) as [Heq|Hne]; [discriminate|congruence].
Qed.

Lemma slice0_sublist s e : slice0 s e `sublist_of` s.
Proof. unfold slice0. destruct (e <? 0)%Z; apply sublist_take. Qed.

Lemma slice0_length_nonneg s e :
  (0 ≤ e)%Z → length (slice0 s e) = Nat.min (Z.to_nat e) (length s).
Proof.
  intros He. unfold slice0.
  destruct (Z.ltb_spec e 0); [lia|]. by rewrite length_take.
Qed.

Lemma slice0_length_minus4 s : length (slice0 s (-4)) = length s - 4.
Proof. unfold slice0. simpl. rewrite length_take. lia. Qed.

Lemma elem_of_list_insert_inv {A} (l : list A) i x y :
  y ∈ <[i:=x]> l → y = x ∨ y ∈ l.
Proof.
  intros (j & Hj)%list_elem_of_lookup_1.
  apply list_lookup_insert_Some in Hj as [(_ & -> & _)|[_ Hj]]; [by left|].
  right. by eapply list_elem_of_lookup_2.
Qed.

(** X15: no echoed line holds a line break, with or without truncation. *)
Theorem echoLines_no_newline cmdHeight columns lines truncate out line :
  echoLines cmdHeight columns lines truncate = Some out →
  line ∈ out → newline ∉ line.
Proof.
  unfold echoLines.
  set (lines1 := if (cmdHeight <? length lines) && truncate
                 then take cmdHeight lines else lines).
  set (maxLen := (Z.of_nat columns - 12)%Z).
  set (lines2 := (λ line, let line := replace_newlines line in
                          if truncate then slice0 line maxLen else line) <$> lines1).
  assert (Hclean : ∀ l, l ∈ lines2 → newline ∉ l).
  { intros l (l0 & -> & _)%list_elem_of_fmap. cbv zeta.
    destruct truncate; [|apply replace_newlines_clean].
    intros Hin. eapply elem_of_sublist in Hin; [|apply slice0_sublist].
    by apply replace_newlines_clean in Hin. }
  destruct (truncate && (length lines2 =? cmdHeight)).
  - destruct (last lines2) as [l|] eqn:Hlast; [|done].
    intros [= <-] [->|Hin]%elem_of_list_insert_inv; [|by apply Hclean].
    assert (Hl : newline ∉ l).
    { apply Hclean. rewrite last_lookup in Hlast. by eapply list_elem_of_lookup_2. }
    intros [Hin|Hin]%elem_of_app.
    + destruct (maxLen <=? Z.of_nat (length l))%Z; [|done].
      eapply elem_of_sublist in Hin; [|apply slice0_sublist]. done.
    + unfold ellipsis in Hin. apply list_elem_of_In in Hin. simpl in Hin.
      unfold newline, space in Hin. intuition discriminate.
  - intros [= <-]. apply Hclean.
Qed.

Lemma echoLines_no_newline_witness :
  newline ∉ [" "%char; "b"%char].
Proof.
  apply (echoLines_no_newline 2 80 [[newline; "b"%char]] false
           [[" "%char; "b"%char]]).
  - reflexivity.
  - constructor.
Defined.

(** X16: with truncation, a command line of at least one row and at least
    13 columns, [echoLines] returns; it echoes as many lines as were given
    but no more than the command line has rows; none is longer than the
    columns less 9; and once the lines fill the command line the last one
    ends in the ellipsis. *)
Theorem echoLines_truncated_fits cmdHeight columns lines :
  1 ≤ cmdHeight → 13 ≤ columns →
  ∃ out, echoLines cmdHeight columns lines true = Some out
         ∧ length out = Nat.min (length lines) cmdHeight
         ∧ Forall (λ line, length line ≤ columns - 9) out
         ∧ (cmdHeight ≤ length lines → ∃ body, last out = Some (body ++ ellipsis)).
Proof.
  intros Hh Hc. unfold echoLines.
  set (lines1 := if (cmdHeight <? length lines) && true
                 then take cmdHeight lines else lines).
  set (maxLen := (Z.of_nat columns - 12)%Z).
  set (lines2 := (λ line, let line := replace_newlines line in
                          if true then slice0 line maxLen else line) <$> lines1).
  assert (Hlen1 : length lines1 = Nat.min (length lines) cmdHeight).
  { unfold lines1. rewrite andb_true_r.
    destruct (Nat.ltb_spec cmdHeight (length lines)); [rewrite length_take|]; lia. }
  assert (Hlen2 : length lines2 = Nat.min (length lines) cmdHeight).
  { unfold lines2. by rewrite length_fmap. }
  assert (Hfit : Forall (λ line, length line ≤ columns - 12) lines2).
  { unfold lines2. apply Forall_fmap, Forall_forall. intros l _. simpl.
    rewrite slice0_length_nonneg by (unfold maxLen; lia). unfold maxLen. lia. }
  simpl. destruct (Nat.eqb_spec (length lines2) cmdHeight) as [Heq|Hne].
  - destruct (last lines2) as [l|] eqn:Hlast.
    2:{ rewrite last_lookup in Hlast. apply lookup_ge_None in Hlast. lia. }
    assert (Hl : length l ≤ columns - 12).
    { rewrite Forall_forall in Hfit. apply Hfit.
      rewrite last_lookup in Hlast. by eapply list_elem_of_lookup_2. }
    eexists. split; [reflexivity|]. rewrite length_insert. split_and!; [done| |].
    + apply Forall_insert.
      * eapply Forall_impl; [exact Hfit|]. simpl; intros; lia.
      * rewrite length_app. unfold ellipsis. simpl.
        destruct (maxLen <=? Z.of_nat (length l))%Z eqn:Hcmp.
        -- rewrite slice0_length_minus4. lia.
        -- apply Z.leb_gt in Hcmp. unfold maxLen in Hcmp. lia.
    + intros _. eexists. rewrite last_lookup, length_insert.
      replace (Init.Nat.pred (length lines2)) with (cmdHeight - 1) by lia.
      apply list_lookup_insert_eq. lia.
  - eexists. split; [reflexivity|]. split_and!; [done| |lia].
    eapply Forall_impl; [exact Hfit|]. simpl; intros; lia.
Qed.

Lemma echoLines_truncated_fits_witness :
  ∃ out, echoLines 1 20 [["a"%char; newline; "b"%char]; ["c"%char]] true = Some out
         ∧ length out = Nat.min 2 1
         ∧ Forall (λ line, length line ≤ 20 - 9) out
         ∧ (1 ≤ 2 → ∃ body, last out = Some (body ++ ellipsis)).
Proof. apply (echoLines_truncated_fits 1 20); lia. Defined.

(** X17: with truncation and a command line of no rows [echoLines] fails
    before anything is echoed, whatever the lines. *)
Theorem echoLines_truncate_no_rows columns lines :
  echoLines 0 columns lines true = None.
Proof.
  unfold echoLines. rewrite andb_true_r.
  destruct (Nat.ltb_spec 0 (length lines)) as [Hlt|Hge].
  - by rewrite take_0.
  - destruct lines; [done|simpl in Hge; lia].
Qed.

(** * The picker dialog *)

Lemma filter_picked_from_elem {A} (items : list A) picked j x :
  x ∈ filter_picked_from j items picked
  ↔ ∃ i, j + i ∈ picked ∧ items !! i = Some x.
Proof.
  revert j; induction items as [|y items IH]; intros j; simpl.
  - split; [by intros ?%elem_of_nil|by intros (i & _ & ?)].
  - assert (Hrest : (∃ i, S j + i ∈ picked ∧ items !! i = Some x)
                    ↔ ∃ i, j + S i ∈ picked ∧ items !! i = Some x).
    { split; intros (i & Hi & Hx); exists i;
        (split; [|done]); by replace (j + S i) with (S j + i) in * by lia. }
    destruct (bool_decide (j ∈ picked)) eqn:Hj.
    + apply bool_decide_eq_true in Hj. rewrite elem_of_cons, IH, Hrest. split.
      * intros [->|(i & Hi & Hx)].
        -- exists 0. by rewrite Nat.add_0_r.
        -- by exists (S i).
      * intros ([|i] & Hi & Hx).
        -- left. simpl in Hx. congruence.
        -- right. by exists i.
    + apply bool_decide_eq_false in Hj. rewrite IH, Hrest. split.
      * intros (i & Hi & Hx). by exists (S i).
      * intros ([|i] & Hi & Hx).
        -- rewrite Nat.add_0_r in Hi. done.
        -- by exists i.
Qed.

Lemma filter_picked_from_sublist {A} (items : list A) picked j :
  filter_picked_from j items picked `sublist_of` items.
Proof.
  revert j; induction items as [|y items IH]; intros j; simpl; [done|].
  destruct (bool_decide (j ∈ picked)); [by apply sublist_skip|by apply sublist_cons].
Qed.

(** X18: when the picker dialog is shown and confirmed, the promise
    resolves to the offered items whose index was picked, in the order in
    which they were offered: an index past the end, a repeated index and
    the order of the picked indexes make no difference. *)
Theorem showPickerDialog_picks_offered {A} (items : list A) token picked res :
  cancellationRequested token = false →
  (showPickerDialog items token (Some picked)).2 = Some res →
  res `sublist_of` items
  ∧ ∀ x, x ∈ res ↔ ∃ i, i ∈ picked ∧ items !! i = Some x.
Proof.
  intros Htok Hres.
  assert (Hr : res = filter_picked items picked).
  { revert Hres. unfold showPickerDialog, mutex_use.
    destruct token as [t|]; simpl in *; [rewrite Htok|]; simpl; congruence. }
  subst res. unfold filter_picked. split.
  - apply filter_picked_from_sublist.
  - intros x. apply (filter_picked_from_elem items picked 0).
Qed.

Lemma showPickerDialog_picks_offered_witness :
  [10; 30] `sublist_of` [10; 20; 30]
  ∧ ∀ x, x ∈ [10; 30] ↔ ∃ i, i ∈ [2; 7; 0; 2] ∧ [10; 20; 30] !! i = Some x.
Proof.
  apply (showPickerDialog_picks_offered [10; 20; 30] None [2; 7; 0; 2] [10; 30]);
    reflexivity.
Defined.

(** * Batches and blocked cursors *)

Lemma batch_commands_calls bufnr ns priority d :
  Forall is_call (batch_commands bufnr ns priority d).
Proof.
  apply Forall_forall. intros c Hc.
  apply batch_commands_elem in Hc as [[-> _]|[[-> _]|[-> _]]]; exact I.
Qed.

(** X19: the applier never sends a request outside a batch: a client log
    made of closed batches is again one after any number of diffs have been
    applied, each diff adding no batch or one batch of at most three
    requests. *)
Theorem applyDiffHighlights_keeps_batches bufnr ns priority notify diffs nvim :
  batched nvim →
  batched (foldl (λ log d, applyDiffHighlights bufnr ns priority d notify log) nvim diffs)
  ∧ ∀ d, length (batch_commands bufnr ns priority d) ≤ 3.
Proof.
  intros Hb. split.
  - revert nvim Hb. induction diffs as [|d diffs IH]; intros nvim Hb; simpl; [done|].
    apply IH. rewrite applyDiffHighlights_trace.
    destruct (all_empty d); [done|].
    apply batched_snoc; [done|apply batch_commands_calls].
  - intros d. unfold batch_commands.
    destruct (removeMarkers d), (remove d), (add d); simpl; lia.
Qed.

Lemma applyDiffHighlights_keeps_batches_witness :
  batched (foldl (λ log d, applyDiffHighlights 1 "ns" 10 d false log) []
             [mkDiff [3] [] []; mkDiff [] [] []; mkDiff [] [convertHighlightItem item_X] [12]]).
Proof.
  apply (applyDiffHighlights_keeps_batches 1 "ns" 10 false
           [mkDiff [3] [] []; mkDiff [] [] []; mkDiff [] [convertHighlightItem item_X] [12]] []).
  constructor.
Defined.

Lemma added_at_blocked items j :
  (∀ h, head items = Some h → lnum h < j) → added_at items j 0 = [].
Proof.
  intros Hh. unfold added_at. rewrite drop_0.
  destruct items as [|h t]; [done|]. simpl.
  specialize (Hh h eq_refl). by destruct (Nat.eqb_spec (lnum h) j); [lia|].
Qed.

Lemma blocked_scan cm items region curr :
  (∀ h, head items = Some h → lnum h < scan_start region) →
  itemIndex (scan_lines cm items region curr) = 0
  ∧ newItems (scan_lines cm items region curr) = [].
Proof.
  intros Hh. rewrite scan_lines_eq. destruct curr as [|r curr']; [done|].
  apply (line_loop_ind (λ _ s, itemIndex s = 0 ∧ newItems s = [])); [done|].
  intros j s Hj [Hidx Hnew]. rewrite line_body_eq, Hidx.
  rewrite added_at_blocked by (intros h Hhd; specialize (Hh h Hhd); lia).
  unfold line_update. destruct (exists_at _ j); [done|]. by destruct cm.
Qed.

(** X20: a desired item on a line before the first line scanned blocks the
    cursor: the loop matches nothing and [add] holds the encodings of all
    desired items, in line order, also of those that are on the backend
    already. *)
Theorem item_before_region_resends_all ws items region token curr d o :
  (diffHighlights ws items region token (Some curr)).2 = Some d →
  o ∈ items → lnum o < scan_start region →
  add d = (convertHighlightItem <$> sort_by_lnum items).
Proof.
  unfold diffHighlights. destruct (cancellationRequested token); [done|].
  simpl. intros [= <-] Ho Hlt; simpl.
  destruct (blocked_scan (checkMarkers ws) (sort_by_lnum items) region curr)
    as [-> ->]; [|by rewrite drop_0].
  intros h Hh.
  assert (Hs : o ∈ sort_by_lnum items) by by rewrite sort_by_lnum_perm.
  pose proof (sort_by_lnum_sorted items) as Hsorted.
  destruct (sort_by_lnum items) as [|h' t]; [done|].
  simpl in Hh. injection Hh as ->.
  apply StronglySorted_inv in Hsorted as [_ Hall].
  apply elem_of_cons in Hs as [->|Hs]; [done|].
  rewrite Forall_forall in Hall. specialize (Hall o Hs). unfold lnum_le in Hall. lia.
Qed.

Lemma item_before_region_resends_all_witness :
  [convertHighlightItem item_X; convertHighlightItem item_late]
  = (convertHighlightItem <$> sort_by_lnum [item_late; item_X]).
Proof.
  apply (item_before_region_resends_all ws_markers [item_late; item_X] (Some (5, 9)) None
           [mkResult "Late" 7 0 1 20]
           (mkDiff [] [convertHighlightItem item_X; convertHighlightItem item_late] [20])
           item_X).
  - reflexivity.
  - apply list_elem_of_In. simpl. tauto.
  - simpl. lia.
Defined.

(** * The quick pick *)

